(** * Peer registry of bazil's server package (server/peer.go)

    A shallow embedding of [findPeer], [GetPeer], [MakePeer],
    [OpenKVForPeer] and [DialPeer], over a model of the Bolt store they
    run on: four buckets of byte-string keys and values, read through
    [View] and changed through [Update]. *)

From Stdlib Require Import ZArith Lia Ascii.
From Stdlib.Strings Require Byte.
From stdpp Require Import gmap strings list fin_maps.

Local Open Scope Z_scope.

(** ** Byte strings *)

Abbreviation byte := Byte.byte.
Abbreviation bytes := (list Byte.byte).

#[global] Instance byte_eq_dec : EqDecision byte := Byte.byte_eq_dec.

#[global] Instance byte_countable : Countable byte :=
  inj_countable Byte.to_N Byte.of_N Byte.of_to_N.

(** The value of a byte as an integer, [0 <= byte_val b < 256]. *)
Definition byte_val (b : byte) : Z := Z.of_N (Byte.to_N b).

(** Go's conversion [byte(v)]: the low eight bits of [v]. *)
Definition to_byte (v : Z) : byte :=
  match Byte.of_N (Z.to_N (Z.land v 255)) with
  | Some b => b
  | None => Byte.x00
  end.

(** [bytes.Compare]: the order Bolt keeps the keys of a bucket in. *)
Fixpoint bytes_compare (a b : bytes) : comparison :=
  match a, b with
  | [], [] => Eq
  | [], _ :: _ => Lt
  | _ :: _, [] => Gt
  | x :: a', y :: b' =>
      match Z.compare (byte_val x) (byte_val y) with
      | Eq => bytes_compare a' b'
      | c => c
      end
  end.

(** ** Outcomes of a call

    Go's [error] values. [ErrPeerNotFound] and [ErrNoStorageForPeer] are
    the two package variables, compared by identity in the source; an
    [errors.New] at a call site is a value of its own, and so are the
    errors of the libraries the code calls. The two errors of a dial are
    the spec's HandshakeIdentityMismatch and connect timeout. *)

Inductive bolt_error : Type :=
  | ErrKeyRequired
  | ErrKeyTooLarge
  | ErrValueTooLarge.

Inductive error : Type :=
  | ErrPeerNotFound
  | ErrNoStorageForPeer
  | ErrorsNew (msg : string)
  | ErrBolt (e : bolt_error)
  | ErrProto (msg : string)
  | ErrHandshakeIdentityMismatch
  | ErrDialTimeout
  | ErrOther (msg : string).

#[global] Instance bolt_error_eq_dec : EqDecision bolt_error.
Proof. solve_decision. Defined.
#[global] Instance error_eq_dec : EqDecision error.
Proof. solve_decision. Defined.

(** A call returns a value, returns an error, or panics. *)
Inductive result (A : Type) : Type :=
  | Ok (a : A)
  | Err (e : error)
  | Panic (msg : string).
Arguments Ok {A} a.
Arguments Err {A} e.
Arguments Panic {A} msg.

Definition bind {A B} (r : result A) (f : A → result B) : result B :=
  match r with
  | Ok a => f a
  | Err e => Err e
  | Panic m => Panic m
  end.

#[global] Instance result_ret : MRet result := λ A a, Ok a.
#[global] Instance result_bind : MBind result := λ A B f r, bind r f.

(** ** encoding/binary, big endian *)

Module BigEndian.

(** [binary.BigEndian.Uint32(b)]; indexing [b[3]] panics on a slice
    shorter than four bytes. *)
Definition Uint32 (b : bytes) : result Z :=
  match b with
  | b0 :: b1 :: b2 :: b3 :: _ =>
      Ok (Z.lor (Z.lor (Z.lor (byte_val b3) (Z.shiftl (byte_val b2) 8))
                       (Z.shiftl (byte_val b1) 16))
                (Z.shiftl (byte_val b0) 24))
  | _ => Panic "index out of range"
  end.

(** [binary.BigEndian.PutUint32(b[:], v)] on a four-byte array. *)
Definition PutUint32 (v : Z) : bytes :=
  [to_byte (Z.shiftr v 24); to_byte (Z.shiftr v 16);
   to_byte (Z.shiftr v 8); to_byte v].

End BigEndian.

(** Unsigned 32-bit arithmetic: [peer.ID] is a [uint32]. *)
Definition uint32_max : Z := 4294967295.
Definition wrap32 (v : Z) : Z := v mod 4294967296.

(** ** The Bolt store

    A bucket is a finite map from keys to values; the cursor walks it in
    [bytes.Compare] order. Nested buckets and failures of the disk are
    left out. *)

Abbreviation Bucket := (gmap bytes bytes).

Module bolt.

Definition MaxKeySize : Z := 32768.
Definition MaxValueSize : Z := 2147483646.

(** [Bucket.Get]: nil exactly when the key is absent. *)
Definition Get (b : Bucket) (key : bytes) : option bytes := b !! key.

(** [Bucket.Put] in a writable transaction. *)
Definition Put (b : Bucket) (key value : bytes) : result Bucket :=
  if Z.of_nat (length key) =? 0 then Err (ErrBolt ErrKeyRequired)
  else if MaxKeySize <? Z.of_nat (length key) then Err (ErrBolt ErrKeyTooLarge)
  else if MaxValueSize <? Z.of_nat (length value) then Err (ErrBolt ErrValueTooLarge)
  else Ok (<[key := value]> b).

(** The later of two entries in key order. *)
Definition later (e1 e2 : bytes * bytes) : bytes * bytes :=
  match bytes_compare e1.1 e2.1 with
  | Gt => e1
  | _ => e2
  end.

(** [Cursor.Last]: the entry with the greatest key, nil on an empty
    bucket. *)
Definition Last (b : Bucket) : option (bytes * bytes) :=
  foldr (λ e acc, match acc with
                  | None => Some e
                  | Some e' => Some (later e e')
                  end) None (map_to_list b).

End bolt.

(** The four buckets of the store, [tokens.BucketPeer] and the others;
    the application creates them when it opens the database. *)
Record DB : Type := mkDB {
  bucketPeer : Bucket;
  bucketPeerID : Bucket;
  bucketPeerAddr : Bucket;
  bucketPeerStorage : Bucket;
}.

Definition emptyDB : DB := mkDB ∅ ∅ ∅ ∅.

(** [DB.View]: the function runs on a snapshot and cannot write. *)
Definition View {A} (db : DB) (fn : DB → result A) : result A := fn db.

(** [DB.Update]: the function runs in a writable transaction, which is
    committed when it returns nil and rolled back when it returns an
    error or panics; the commit itself is taken to succeed. *)
Definition Update {A} (db : DB) (fn : DB → result (A * DB)) : result A * DB :=
  match fn db with
  | Ok (a, db') => (Ok a, db')
  | Err e => (Err e, db)
  | Panic m => (Panic m, db)
  end.

(** ** Records and collaborators *)

(** [ed25519.PublicKeySize]: a public key is a [[32]byte] array. *)
Definition PublicKeySize : nat := 32.

(** [peer.Peer]. *)
Record Peer : Type := mkPeer {
  ID : Z;
  Pub : bytes;
}.

#[global] Instance Peer_eq_dec : EqDecision Peer.
Proof. solve_decision. Defined.

(** [wire.Peer], the stored identity record; the code reads and writes
    its [Id] field only. *)
Record wire_Peer : Type := mk_wire_Peer {
  Id : Z;
}.

(** What the file calls and does not define: the protobuf codec of the
    two stored records, the backend factory [app.openStorage], and
    [kvmulti.New]. A codec error is a value of the protobuf library,
    carried here by its message. *)
Class Externals : Type := {
  KV : Type;
  PeerStorageBackend : Type;
  proto_Marshal_Peer : wire_Peer → string + bytes;
  proto_Unmarshal_Peer : bytes → string + wire_Peer;
  proto_Unmarshal_PeerStorage : bytes → string + gmap string PeerStorageBackend;
  openStorage : string → error + KV;
  kvmulti_New : list KV → KV;
}.

Definition from_proto {A} (r : string + A) : result A :=
  match r with
  | inl msg => Err (ErrProto msg)
  | inr a => Ok a
  end.

(** A Go call returning [(value, error)]. *)
Definition from_go {A} (r : error + A) : result A :=
  match r with
  | inl e => Err e
  | inr a => Ok a
  end.

(** ** The peer registry *)

Section registry.
Context `{X : Externals}.

Definition findPeer (tx : DB) (pub : bytes) : result Peer :=
  match bolt.Get (bucketPeer tx) pub with
  | None => Err ErrPeerNotFound
  | Some val =>
      msg ← from_proto (proto_Unmarshal_Peer val);
      Ok {| ID := Id msg; Pub := pub |}
  end.

Definition GetPeer (db : DB) (pub : bytes) : result Peer :=
  View db (λ tx, findPeer tx pub).

(** The creation branch of [getOrMake]: pick the id after the last one
    of the id bucket, then write the id entry and the record. *)
Definition makeNew (tx : DB) (pub : bytes) : result (Peer * DB) :=
  let bucket := bucketPeer tx in
  let idBucket := bucketPeerID tx in
  id0 ← match bolt.Last idBucket with
        | Some (k, _) => BigEndian.Uint32 k
        | None => Ok 0
        end;
  let id := wrap32 (id0 + 1) in
  if id =? 0 then Err (ErrorsNew "out of peer IDs")
  else
    let idKey := BigEndian.PutUint32 id in
    idBucket' ← bolt.Put idBucket idKey pub;
    buf ← from_proto (proto_Marshal_Peer {| Id := id |});
    bucket' ← bolt.Put bucket pub buf;
    Ok ({| ID := id; Pub := pub |},
        {| bucketPeer := bucket';
           bucketPeerID := idBucket';
           bucketPeerAddr := bucketPeerAddr tx;
           bucketPeerStorage := bucketPeerStorage tx |}).

(** The closure [getOrMake] of [MakePeer], run under [Update]. *)
Definition getOrMake (pub : bytes) (tx : DB) : result (Peer * DB) :=
  match findPeer tx pub with
  | Err ErrPeerNotFound => makeNew tx pub
  | Ok p => Ok (p, tx)
  | Err e => Err e
  | Panic m => Panic m
  end.

Definition MakePeer (db : DB) (pub : bytes) : result Peer * DB :=
  match GetPeer db pub with
  | Err ErrPeerNotFound => Update db (getOrMake pub)
  | r => (r, db)
  end.

(** ** The storage resolver *)

(** The loop of [OpenKVForPeer] over the backends in the order the
    range statement visits them. *)
Fixpoint openAll (backends : list string) (kvstores : list KV) : result (list KV) :=
  match backends with
  | [] => Ok kvstores
  | backend :: rest =>
      s ← from_go (openStorage backend);
      openAll rest (kvstores ++ [s])
  end.

(** [range_order] is the order in which the runtime ranges over the
    decoded map in this call; Go leaves it unspecified. *)
Definition OpenKVForPeer
    (range_order : gmap string PeerStorageBackend → list string)
    (db : DB) (pub : bytes) : result KV :=
  msg ← View db (λ tx,
           match bolt.Get (bucketPeerStorage tx) pub with
           | None => Err ErrNoStorageForPeer
           | Some val => from_proto (proto_Unmarshal_PeerStorage val)
           end);
  kvstores ← openAll (range_order msg) [];
  Ok (kvmulti_New kvstores).

End registry.

(** A range over a map visits every key once, in some order. *)
Definition valid_range {B} (range_order : gmap string B → list string) : Prop :=
  ∀ m, range_order m ≡ₚ (map_to_list m).*1.

(** ** The vocabulary of the specification *)

(** The id a key of the id bucket encodes. *)
Definition key_id (k : bytes) : option Z :=
  match BigEndian.Uint32 k with
  | Ok v => Some v
  | _ => None
  end.

(** The ids present in the id bucket, and the numerically largest of
    them, 0 when there is none. *)
Definition ids_of (idx : Bucket) : list Z :=
  omap (λ e : bytes * bytes, key_id e.1) (map_to_list idx).

Definition max_id (idx : Bucket) : Z := foldr Z.max 0 (ids_of idx).

(** The keys of the id bucket are the four bytes [PutUint32] writes. *)
Definition wf_id_index (idx : Bucket) : Prop :=
  map_Forall (λ (k : bytes) (_ : bytes), length k = 4%nat) idx.

(** The store after the two writes of the creation branch. *)
Definition created (tx : DB) (pub : bytes) (id : Z) (buf : bytes) : DB :=
  {| bucketPeer := <[pub := buf]> (bucketPeer tx);
     bucketPeerID := <[BigEndian.PutUint32 id := pub]> (bucketPeerID tx);
     bucketPeerAddr := bucketPeerAddr tx;
     bucketPeerStorage := bucketPeerStorage tx |}.

Section relations.
Context `{X : Externals}.

(** The codec reads back what it wrote, and writes every [uint32] id
    into a value Bolt accepts. *)
Definition codec_round_trip : Prop :=
  ∀ id buf, 0 ≤ id ≤ uint32_max →
    proto_Marshal_Peer {| Id := id |} = inr buf →
    proto_Unmarshal_Peer buf = inr {| Id := id |}.

Definition codec_total : Prop :=
  ∀ id, 0 ≤ id ≤ uint32_max →
    ∃ buf, proto_Marshal_Peer {| Id := id |} = inr buf ∧
           Z.of_nat (length buf) ≤ bolt.MaxValueSize.

(** Modelled from the spec: [app.openStorage] is not in this file; a
    backend that fails to open fails with an error of its own kind,
    neither of the two package variables. *)
Definition factory_errors_own : Prop :=
  ∀ backend e, openStorage backend = inl e →
    e ≠ ErrPeerNotFound ∧ e ≠ ErrNoStorageForPeer.

(** The identity record of [pub] carries [id]. *)
Definition carries (db : DB) (pub : bytes) (id : Z) : Prop :=
  ∃ val, bucketPeer db !! pub = Some val ∧
         proto_Unmarshal_Peer val = inr {| Id := id |}.

(** The id bucket maps [id] to [pub]. *)
Definition indexed (db : DB) (id : Z) (pub : bytes) : Prop :=
  ∃ k, bucketPeerID db !! k = Some pub ∧ BigEndian.Uint32 k = Ok id.

(** The two buckets in lockstep. *)
Definition registry_inv (db : DB) : Prop :=
  wf_id_index (bucketPeerID db) ∧
  (∀ k pub, bucketPeerID db !! k = Some pub →
     ∃ id, BigEndian.Uint32 k = Ok id ∧ carries db pub id) ∧
  (∀ pub val, bucketPeer db !! pub = Some val →
     ∃ id, proto_Unmarshal_Peer val = inr {| Id := id |} ∧ indexed db id pub).

(** Every indexed id has exactly one record, every record exactly one
    index entry. *)
Definition bijection (db : DB) : Prop :=
  (∀ id pub, indexed db id pub →
     carries db pub id ∧ ∀ pub', carries db pub' id → pub' = pub) ∧
  (∀ pub id, carries db pub id →
     indexed db id pub ∧ ∀ id', indexed db id' pub → id' = id).

(** The stores the registry can be in: the empty one, and what
    [MakePeer] leaves. *)
Inductive reachable : DB → Prop :=
  | reachable_empty : reachable emptyDB
  | reachable_MakePeer db pub :
      reachable db → length pub = PublicKeySize →
      reachable (MakePeer db pub).2.

End relations.

(** The id bucket holds [v] as one of its keys. *)
Definition has_id (idx : Bucket) (v : Z) : Prop :=
  ∃ k pub, idx !! k = Some pub ∧ BigEndian.Uint32 k = Ok v.

(** The ids of the bucket are 1, 2, ... up to the largest, one key
    each. *)
Definition dense_ids (idx : Bucket) : Prop :=
  (∀ v, has_id idx v ↔ 1 ≤ v ≤ max_id idx) ∧
  Z.of_nat (size idx) = max_id idx.

(** The handle a backend opens to, if it opens. *)
Definition opened `{X : Externals} (backend : string) : option KV :=
  match openStorage backend with
  | inr s => Some s
  | inl _ => None
  end.

(** ** The connection establisher *)

(** What the far end of a connection does: it never completes the
    handshake, or it passes the standard cryptographic validation and
    presents a public key. *)
Inductive remote : Type :=
  | NoAnswer
  | Presents (key : bytes).

(** The network a dial runs against: who answers at a network/address
    pair. *)
Definition Network : Type := string → string → remote.

(** The connections a dial attempts, in order. *)
Inductive net_event : Type :=
  | Connect (network addr : string).

(** [grpc.ClientConn], with the key its far end authenticated as. *)
Record ClientConn : Type := mkClientConn {
  conn_network : string;
  conn_addr : string;
  conn_key : bytes;
}.

(** [peerClient]. *)
Record peerClient : Type := mk_peerClient {
  conn : ClientConn;
}.

(** The type of [grpcedtls.Authenticator.Lookup]. *)
Definition LookupFunc : Type :=
  string → string → result (string * string * bytes).

(** Modelled from the spec: the pinned-identity credential
    [grpcedtls.Authenticator] and [grpc.Dial] are not in this file. One
    attempt goes Resolving, Handshaking, Authenticated, and fails from
    any step: the lookup runs first and its failure ends the dial; the
    far end is then connected to at the resolved address, and the key it
    presents must equal the expected one byte for byte. There is no
    retry. *)
Definition grpc_Dial (target : string) (Lookup : LookupFunc) (net : Network)
    : result ClientConn * list net_event :=
  match Lookup "tcp" target with
  | Ok (network, addr, expected) =>
      (match net network addr with
       | NoAnswer => Err ErrDialTimeout
       | Presents key =>
           if decide (key = expected)
           then Ok {| conn_network := network; conn_addr := addr; conn_key := key |}
           else Err ErrHandshakeIdentityMismatch
       end, [Connect network addr])
  | Err e => (Err e, [])
  | Panic m => (Panic m, [])
  end.

(** Go's [string(val)]. *)
Definition string_of_bytes (val : bytes) : string :=
  String.string_of_list_byte val.

(** The closure [lookup] of [DialPeer]. *)
Definition lookup (db : DB) (pub : bytes) : LookupFunc :=
  λ network addr,
    addr' ← View db (λ tx,
               match bolt.Get (bucketPeerAddr tx) pub with
               | None => Err (ErrorsNew "no address known for peer")
               | Some val => Ok (string_of_bytes val)
               end);
    Ok (network, addr', pub).

Definition DialPeer (db : DB) (net : Network) (pub : bytes)
    : result peerClient * list net_event :=
  match grpc_Dial "placeholder.bazil.org.invalid.:443" (lookup db pub) net with
  | (Ok c, tr) => (Ok {| conn := c |}, tr)
  | (Err e, tr) => (Err e, tr)
  | (Panic m, tr) => (Panic m, tr)
  end.

(** ** A sample of the collaborators

    A protobuf encoding of [wire.Peer] with [uint32 id = 1], a
    length-prefixed list of backend names, and a factory that knows the
    backends whose name does not start with an exclamation mark. *)

Module Sample.

Fixpoint EncodeVarint (fuel : nat) (x : Z) : bytes :=
  match fuel with
  | O => []
  | S fuel' =>
      if x <? 128 then [to_byte x]
      else to_byte (Z.lor (Z.land x 127) 128) :: EncodeVarint fuel' (Z.shiftr x 7)
  end.

Fixpoint DecodeVarint (buf : bytes) : option (Z * bytes) :=
  match buf with
  | [] => None
  | b :: rest =>
      if byte_val b <? 128 then Some (byte_val b, rest)
      else match DecodeVarint rest with
           | Some (v, rest') =>
               Some (Z.lor (Z.land (byte_val b) 127) (Z.shiftl v 7), rest')
           | None => None
           end
  end.

Definition Marshal_Peer (m : wire_Peer) : string + bytes :=
  if Id m =? 0 then inr []
  else inr (Byte.x08 :: EncodeVarint 5 (Id m)).

Definition Unmarshal_Peer (buf : bytes) : string + wire_Peer :=
  match buf with
  | [] => inr {| Id := 0 |}
  | tag :: rest =>
      if decide (tag = Byte.x08) then
        match DecodeVarint rest with
        | Some (v, []) => inr {| Id := wrap32 v |}
        | Some (_, _ :: _) => inl "proto: unexpected field"%string
        | None => inl "unexpected EOF"%string
        end
      else inl "proto: bad wiretype"%string
  end.

Fixpoint names (fuel : nat) (buf : bytes) : string + list string :=
  match buf, fuel with
  | [], _ => inr []
  | _, O => inl "unexpected EOF"%string
  | n :: rest, S fuel' =>
      let len := Z.to_nat (byte_val n) in
      if decide (len ≤ length rest)%nat then
        match names fuel' (drop len rest) with
        | inr l => inr (string_of_bytes (take len rest) :: l)
        | inl e => inl e
        end
      else inl "unexpected EOF"%string
  end.

Definition Unmarshal_PeerStorage (buf : bytes) : string + gmap string unit :=
  match names (length buf) buf with
  | inr l => inr (list_to_map ((λ n, (n, ())) <$> l))
  | inl e => inl e
  end.

Definition open (backend : string) : error + list string :=
  match backend with
  | String "!"%char _ => inl (ErrOther ("cannot open " +:+ backend))
  | _ => inr [backend]
  end.

Definition externals : Externals := {|
  KV := list string;
  PeerStorageBackend := unit;
  proto_Marshal_Peer := Marshal_Peer;
  proto_Unmarshal_Peer := Unmarshal_Peer;
  proto_Unmarshal_PeerStorage := Unmarshal_PeerStorage;
  openStorage := open;
  kvmulti_New := @concat string;
|}.

(** The order a sorted walk of the keys gives. *)
Definition in_key_order (m : gmap string unit) : list string :=
  (map_to_list m).*1.

(** The same walk backwards. *)
Definition in_reverse_key_order (m : gmap string unit) : list string :=
  reverse (in_key_order m).

Definition key (b : byte) : bytes := replicate PublicKeySize b.
Definition A_PK : bytes := key Byte.x41.
Definition B_PK : bytes := key Byte.x42.

(** The store after peer A registered. *)
Definition db1 : DB := created emptyDB A_PK 1 [Byte.x08; Byte.x01].

(** A store where peer A holds the last id there is. *)
Definition db_full : DB :=
  mkDB {[A_PK := [Byte.x08; Byte.xff; Byte.xff; Byte.xff; Byte.xff; Byte.x0f]]}
       {[[Byte.xff; Byte.xff; Byte.xff; Byte.xff] := A_PK]} ∅ ∅.

(** A store whose record of peer A does not decode. *)
Definition db_corrupt : DB := mkDB {[A_PK := [Byte.xff]]} ∅ ∅ ∅.

(** Peer A registered and offered the backends "a" and "!b", the
    second of which does not open; and offered no backend at all. *)
Definition db_storage : DB :=
  mkDB (bucketPeer db1) (bucketPeerID db1) ∅
       {[A_PK := [Byte.x01; Byte.x61; Byte.x02; Byte.x21; Byte.x62]]}.
Definition db_storage_empty : DB :=
  mkDB (bucketPeer db1) (bucketPeerID db1) ∅ {[A_PK := []]}.

(** Peer A offered the backends "!a" and "!b", neither of which opens,
    and the backends "a" and "b", which both open. *)
Definition db_storage_bad : DB :=
  mkDB (bucketPeer db1) (bucketPeerID db1) ∅
       {[A_PK := [Byte.x02; Byte.x21; Byte.x61; Byte.x02; Byte.x21; Byte.x62]]}.
Definition db_storage_good : DB :=
  mkDB (bucketPeer db1) (bucketPeerID db1) ∅
       {[A_PK := [Byte.x01; Byte.x61; Byte.x01; Byte.x62]]}.

(** Peer A registered and known at the address "h:1". *)
Definition db_addr : DB :=
  mkDB (bucketPeer db1) (bucketPeerID db1)
       {[A_PK := [Byte.x68; Byte.x3a; Byte.x31]]} ∅.

(** A network where peer A answers everywhere, and one where peer B
    does. *)
Definition net_A : Network := λ _ _, Presents A_PK.
Definition net_B : Network := λ _ _, Presents B_PK.

End Sample.

(** * Properties *)

(** ** Bytes and big-endian numbers *)

Lemma byte_to_N_inj (a b : byte) : Byte.to_N a = Byte.to_N b → a = b.
Proof.
  intros H. apply (f_equal Byte.of_N) in H.
  rewrite !Byte.of_to_N in H. congruence.
Qed.

Lemma byte_val_range (b : byte) : 0 ≤ byte_val b < 256.
Proof.
  unfold byte_val. pose proof (Byte.to_N_bounded b). lia.
Qed.

Lemma byte_val_inj (a b : byte) : byte_val a = byte_val b → a = b.
Proof. unfold byte_val. intros H. apply byte_to_N_inj. lia. Qed.

Lemma byte_val_to_byte (v : Z) : byte_val (to_byte v) = v mod 256.
Proof.
  unfold to_byte, byte_val.
  change 255 with (Z.ones 8). rewrite Z.land_ones by lia.
  change (2 ^ 8) with 256.
  pose proof (Z.mod_pos_bound v 256 ltac:(lia)) as Hr.
  pose proof (Byte.to_of_N_option_map (Z.to_N (v mod 256))) as Ho.
  destruct (Byte.of_N (Z.to_N (v mod 256))) as [b|] eqn:Hb; simpl in Ho.
  - destruct (N.leb_spec (Z.to_N (v mod 256)) 255); [|discriminate].
    injection Ho as ->. lia.
  - destruct (N.leb_spec (Z.to_N (v mod 256)) 255); [discriminate|lia].
Qed.

Lemma lor_shiftl_add (a b n : Z) :
  0 ≤ n → 0 ≤ a < 2 ^ n → Z.lor a (Z.shiftl b n) = a + b * 2 ^ n.
Proof.
  intros Hn Ha.
  rewrite <- (Z.shiftl_mul_pow2 b n) by lia.
  rewrite <- (Z.add_lor_land a (Z.shiftl b n)).
  assert (Z.land a (Z.shiftl b n) = 0) as ->.
  { apply Z.bits_inj'. intros i Hi.
    rewrite Z.land_spec, Z.bits_0.
    destruct (Z.lt_ge_cases i n).
    - rewrite Z.shiftl_spec_low by lia. apply andb_false_r.
    - rewrite <- (Z.mod_small a (2 ^ n)) by lia.
      rewrite Z.mod_pow2_bits_high by lia. reflexivity. }
  lia.
Qed.

Lemma Uint32_arith (b0 b1 b2 b3 : byte) (rest : bytes) :
  BigEndian.Uint32 (b0 :: b1 :: b2 :: b3 :: rest) =
  Ok (byte_val b0 * 16777216 + byte_val b1 * 65536 + byte_val b2 * 256 + byte_val b3).
Proof.
  unfold BigEndian.Uint32.
  pose proof (byte_val_range b0). pose proof (byte_val_range b1).
  pose proof (byte_val_range b2). pose proof (byte_val_range b3).
  rewrite (lor_shiftl_add _ _ 8) by lia.
  rewrite (lor_shiftl_add _ _ 16) by lia.
  rewrite (lor_shiftl_add _ _ 24) by lia.
  f_equal. lia.
Qed.

Lemma Uint32_PutUint32 (v : Z) :
  0 ≤ v ≤ uint32_max → BigEndian.Uint32 (BigEndian.PutUint32 v) = Ok v.
Proof.
  unfold uint32_max. intros Hv. unfold BigEndian.PutUint32.
  rewrite Uint32_arith, !byte_val_to_byte, !Z.shiftr_div_pow2 by lia.
  f_equal. change (2 ^ 24) with 16777216. change (2 ^ 16) with 65536.
  change (2 ^ 8) with 256.
  Z.to_euclidean_division_equations. lia.
Qed.

Lemma PutUint32_length (v : Z) : length (BigEndian.PutUint32 v) = 4%nat.
Proof. reflexivity. Qed.

Lemma Uint32_of_length (k : bytes) :
  length k = 4%nat → ∃ v, BigEndian.Uint32 k = Ok v ∧ 0 ≤ v ≤ uint32_max.
Proof.
  intros Hlen. destruct k as [|b0 [|b1 [|b2 [|b3 [|]]]]]; try discriminate.
  rewrite Uint32_arith. eexists; split; [reflexivity|].
  pose proof (byte_val_range b0). pose proof (byte_val_range b1).
  pose proof (byte_val_range b2). pose proof (byte_val_range b3).
  unfold uint32_max. lia.
Qed.

(** *** The key order *)

Definition bytes_le (a b : bytes) : Prop := bytes_compare a b ≠ Gt.

Lemma bytes_compare_refl (a : bytes) : bytes_compare a a = Eq.
Proof. induction a as [|x a IH]; simpl; [done|]. by rewrite Z.compare_refl. Qed.

Lemma bytes_compare_antisym (a b : bytes) :
  bytes_compare b a = CompOpp (bytes_compare a b).
Proof.
  revert b. induction a as [|x a IH]; intros [|y b]; simpl; try done.
  rewrite (Z.compare_antisym (byte_val x) (byte_val y)).
  destruct (byte_val x ?= byte_val y); simpl; auto.
Qed.

Lemma bytes_le_trans (a b c : bytes) : bytes_le a b → bytes_le b c → bytes_le a c.
Proof.
  unfold bytes_le. revert b c.
  induction a as [|x a IH]; intros [|y b] [|z c]; simpl; try done.
  destruct (Z.compare_spec (byte_val x) (byte_val y)) as [Hxy|Hxy|Hxy];
    destruct (Z.compare_spec (byte_val y) (byte_val z)) as [Hyz|Hyz|Hyz];
    try done; intros H1 H2.
  - rewrite Hxy, Hyz, Z.compare_refl. eauto.
  - assert ((byte_val x ?= byte_val z) = Lt) as -> by (apply Z.compare_lt_iff; lia). done.
  - assert ((byte_val x ?= byte_val z) = Lt) as -> by (apply Z.compare_lt_iff; lia). done.
  - assert ((byte_val x ?= byte_val z) = Lt) as -> by (apply Z.compare_lt_iff; lia). done.
Qed.

Lemma bytes_le_total (a b : bytes) : bytes_compare a b = Gt → bytes_le b a.
Proof.
  unfold bytes_le. intros H. rewrite bytes_compare_antisym, H. done.
Qed.

(** On four-byte keys the key order is the order of the numbers they
    encode. *)
Lemma bytes_compare_Uint32 (k1 k2 : bytes) (a b : Z) :
  length k1 = 4%nat → length k2 = 4%nat →
  BigEndian.Uint32 k1 = Ok a → BigEndian.Uint32 k2 = Ok b →
  bytes_compare k1 k2 = (a ?= b).
Proof.
  intros H1 H2.
  destruct k1 as [|x0 [|x1 [|x2 [|x3 [|]]]]]; try discriminate.
  destruct k2 as [|y0 [|y1 [|y2 [|y3 [|]]]]]; try discriminate.
  rewrite !Uint32_arith. intros [= <-] [= <-]. simpl.
  pose proof (byte_val_range x0). pose proof (byte_val_range x1).
  pose proof (byte_val_range x2). pose proof (byte_val_range x3).
  pose proof (byte_val_range y0). pose proof (byte_val_range y1).
  pose proof (byte_val_range y2). pose proof (byte_val_range y3).
  symmetry.
  destruct (Z.compare_spec (byte_val x0) (byte_val y0));
    [destruct (Z.compare_spec (byte_val x1) (byte_val y1));
      [destruct (Z.compare_spec (byte_val x2) (byte_val y2));
        [destruct (Z.compare_spec (byte_val x3) (byte_val y3))|..]|..]|..];
    first [apply Z.compare_eq_iff | apply Z.compare_lt_iff | apply Z.compare_gt_iff]; lia.
Qed.

(** *** The cursor *)

Lemma Last_None (b : Bucket) : bolt.Last b = None ↔ b = ∅.
Proof.
  unfold bolt.Last. rewrite <- map_to_list_empty_iff.
  destruct (map_to_list b) as [|e l]; simpl; [done|].
  split; [|done]. by destruct (foldr _ _ l).
Qed.

Lemma Last_Some (b : Bucket) (k v : bytes) :
  bolt.Last b = Some (k, v) →
  b !! k = Some v ∧ ∀ k' v', b !! k' = Some v' → bytes_le k' k.
Proof.
  unfold bolt.Last. intros H.
  assert ((k, v) ∈ map_to_list b ∧
          ∀ e, e ∈ map_to_list b → bytes_le e.1 k) as [Hin Hmax].
  { revert k v H. induction (map_to_list b) as [|e l IH]; intros k v; simpl; [done|].
    destruct (foldr _ None l) as [[k0 v0]|] eqn:Hl.
    - destruct (IH k0 v0 eq_refl) as [Hin0 Hmax0].
      unfold bolt.later. simpl.
      destruct (bytes_compare e.1 k0) eqn:Hc; intros [= Heq].
      + subst. split; [by right|].
        intros e' [->|He']%elem_of_cons; [|by apply Hmax0].
        unfold bytes_le. by rewrite Hc.
      + subst. split; [by right|].
        intros e' [->|He']%elem_of_cons; [|by apply Hmax0].
        unfold bytes_le. by rewrite Hc.
      + subst e. split; [by left|].
        intros e' [->|He']%elem_of_cons; simpl.
        * unfold bytes_le. by rewrite bytes_compare_refl.
        * apply (bytes_le_trans _ k0); [by apply Hmax0|by apply bytes_le_total].
    - intros [= ->]. destruct l as [|e0 l]; [|simpl in Hl; by destruct (foldr _ _ l)].
      split; [by left|].
      intros e' [->|He']%elem_of_cons; simpl.
      + unfold bytes_le. by rewrite bytes_compare_refl.
      + by apply elem_of_nil in He'. }
  split.
  - by apply elem_of_map_to_list.
  - intros k' v' Hk'. apply (Hmax (k', v')). by apply elem_of_map_to_list.
Qed.

(** *** The largest id *)

Lemma key_id_Some (k : bytes) (v : Z) : key_id k = Some v ↔ BigEndian.Uint32 k = Ok v.
Proof.
  unfold key_id. destruct (BigEndian.Uint32 k); split; congruence.
Qed.

Lemma elem_of_ids_of (idx : Bucket) (v : Z) :
  v ∈ ids_of idx ↔ ∃ k pub, idx !! k = Some pub ∧ BigEndian.Uint32 k = Ok v.
Proof.
  unfold ids_of. rewrite list_elem_of_omap. split.
  - intros ([k pub] & Hin & Hid). exists k, pub.
    split; [by apply elem_of_map_to_list|by apply key_id_Some].
  - intros (k & pub & Hk & Hid). exists (k, pub).
    split; [by apply elem_of_map_to_list|by apply key_id_Some].
Qed.

Lemma foldr_max_ge (l : list Z) (v : Z) : v ∈ l → v ≤ foldr Z.max 0 l.
Proof.
  induction l as [|x l IH]; simpl; [by intros ?%elem_of_nil|].
  intros [->|Hin]%elem_of_cons; [lia|]. specialize (IH Hin). lia.
Qed.

Lemma foldr_max_attained (l : list Z) : foldr Z.max 0 l = 0 ∨ foldr Z.max 0 l ∈ l.
Proof.
  induction l as [|x l IH]; simpl; [by left|].
  destruct (Z.max_spec x (foldr Z.max 0 l)) as [[_ ->]|[_ ->]].
  - destruct IH as [IH|IH]; [by left|]. right. by right.
  - right. by left.
Qed.

(** [max_id] bounds every id of the bucket and, unless it is 0, is one
    of them. *)
Lemma max_id_upper (idx : Bucket) (k pub : bytes) (v : Z) :
  idx !! k = Some pub → BigEndian.Uint32 k = Ok v → v ≤ max_id idx.
Proof.
  intros Hk Hv. apply foldr_max_ge, elem_of_ids_of. eauto.
Qed.

Lemma max_id_attained (idx : Bucket) :
  max_id idx = 0 ∨ ∃ k pub, idx !! k = Some pub ∧ BigEndian.Uint32 k = Ok (max_id idx).
Proof.
  destruct (foldr_max_attained (ids_of idx)) as [H|H]; [by left|].
  right. by apply elem_of_ids_of.
Qed.

Lemma max_id_empty : max_id ∅ = 0.
Proof. unfold max_id, ids_of. by rewrite map_to_list_empty. Qed.

Lemma max_id_range (idx : Bucket) : wf_id_index idx → 0 ≤ max_id idx ≤ uint32_max.
Proof.
  intros Hwf. destruct (max_id_attained idx) as [->|(k & pub & Hk & Hv)].
  - unfold uint32_max. lia.
  - destruct (Uint32_of_length k (Hwf _ _ Hk)) as (v & Hv' & Hr). congruence.
Qed.

(** The id the cursor reads off the last key is the largest one. *)
Lemma Last_max_id (idx : Bucket) :
  wf_id_index idx →
  match bolt.Last idx with
  | Some (k, _) => BigEndian.Uint32 k
  | None => Ok 0
  end = Ok (max_id idx).
Proof.
  intros Hwf. destruct (bolt.Last idx) as [[k pub]|] eqn:HL.
  - apply Last_Some in HL as [Hk Hmax].
    destruct (Uint32_of_length k (Hwf _ _ Hk)) as (v & Hv & Hr).
    rewrite Hv. f_equal.
    pose proof (max_id_upper idx k pub v Hk Hv) as Hle.
    destruct (max_id_attained idx) as [H0|(k' & pub' & Hk' & Hv')]; [lia|].
    pose proof (Hmax _ _ Hk') as Hc. unfold bytes_le in Hc.
    rewrite (bytes_compare_Uint32 k' k _ _ (Hwf _ _ Hk') (Hwf _ _ Hk) Hv' Hv) in Hc.
    pose proof (proj1 (Z.compare_le_iff _ _) Hc). lia.
  - apply Last_None in HL. subst. by rewrite max_id_empty.
Qed.

(** ** The registry *)

Lemma Put_Ok (b : Bucket) (key value : bytes) :
  (0 < length key)%nat → Z.of_nat (length key) ≤ bolt.MaxKeySize →
  Z.of_nat (length value) ≤ bolt.MaxValueSize →
  bolt.Put b key value = Ok (<[key := value]> b).
Proof.
  intros H0 Hk Hv. unfold bolt.Put.
  destruct (Z.eqb_spec (Z.of_nat (length key)) 0); [lia|].
  destruct (Z.ltb_spec bolt.MaxKeySize (Z.of_nat (length key))); [lia|].
  destruct (Z.ltb_spec bolt.MaxValueSize (Z.of_nat (length value))); [lia|].
  done.
Qed.

Lemma Put_inv (b b' : Bucket) (key value : bytes) :
  bolt.Put b key value = Ok b' → b' = <[key := value]> b.
Proof.
  unfold bolt.Put. repeat case_match; congruence.
Qed.

Section registry_facts.
Context `{X : Externals}.

Lemma findPeer_absent (tx : DB) (pub : bytes) :
  findPeer tx pub = Err ErrPeerNotFound ↔ bucketPeer tx !! pub = None.
Proof.
  unfold findPeer, bolt.Get. destruct (bucketPeer tx !! pub) as [val|]; [|done].
  destruct (proto_Unmarshal_Peer val); simpl; split; congruence.
Qed.

Lemma findPeer_present (tx : DB) (pub val : bytes) :
  bucketPeer tx !! pub = Some val →
  findPeer tx pub =
    match proto_Unmarshal_Peer val with
    | inl msg => Err (ErrProto msg)
    | inr m => Ok {| ID := Id m; Pub := pub |}
    end.
Proof.
  intros H. unfold findPeer, bolt.Get. rewrite H.
  by destruct (proto_Unmarshal_Peer val).
Qed.

(** The creation branch on a well-formed id bucket, step by step. *)
Lemma makeNew_cases (tx : DB) (pub : bytes) :
  wf_id_index (bucketPeerID tx) → length pub = PublicKeySize →
  makeNew tx pub =
    let id := wrap32 (max_id (bucketPeerID tx) + 1) in
    if id =? 0 then Err (ErrorsNew "out of peer IDs")
    else match proto_Marshal_Peer {| Id := id |} with
         | inl msg => Err (ErrProto msg)
         | inr buf =>
             if bolt.MaxValueSize <? Z.of_nat (length buf)
             then Err (ErrBolt ErrValueTooLarge)
             else Ok ({| ID := id; Pub := pub |}, created tx pub id buf)
         end.
Proof.
  intros Hwf Hlen. unfold makeNew. rewrite (Last_max_id _ Hwf). simpl.
  destruct (wrap32 (max_id (bucketPeerID tx) + 1) =? 0); [done|].
  rewrite Put_Ok; [|simpl; lia|simpl; unfold bolt.MaxKeySize; lia|
    rewrite Hlen; unfold PublicKeySize, bolt.MaxValueSize; lia].
  simpl. destruct (proto_Marshal_Peer _) as [msg|buf]; simpl; [done|].
  unfold bolt.Put. rewrite Hlen. simpl.
  by destruct (bolt.MaxValueSize <? Z.of_nat (length buf)).
Qed.

Lemma MakePeer_absent (db : DB) (pub : bytes) :
  bucketPeer db !! pub = None →
  MakePeer db pub = Update db (λ tx, makeNew tx pub).
Proof.
  intros H. apply findPeer_absent in H.
  unfold MakePeer, GetPeer, View. rewrite H.
  unfold Update, getOrMake. by rewrite H.
Qed.

Lemma MakePeer_present (db : DB) (pub val : bytes) :
  bucketPeer db !! pub = Some val →
  MakePeer db pub = (GetPeer db pub, db).
Proof.
  intros H. unfold MakePeer, GetPeer, View.
  rewrite (findPeer_present _ _ _ H).
  by destruct (proto_Unmarshal_Peer val).
Qed.

End registry_facts.

Section allocation.
Context `{X : Externals}.

Lemma wrap32_succ (v : Z) :
  0 ≤ v ≤ uint32_max →
  (wrap32 (v + 1) = 0 ∧ v = uint32_max) ∨ (wrap32 (v + 1) = v + 1 ∧ v < uint32_max).
Proof.
  unfold uint32_max, wrap32. intros Hv.
  destruct (decide (v = 4294967295)) as [->|Hne]; [by left|].
  right. rewrite Z.mod_small by lia. lia.
Qed.

(** What [MakePeer] does for a key without a record. *)
Lemma MakePeer_creates (db : DB) (pub : bytes) :
  wf_id_index (bucketPeerID db) → length pub = PublicKeySize →
  bucketPeer db !! pub = None →
  let last := max_id (bucketPeerID db) in
  ((MakePeer db pub).1 = Err (ErrorsNew "out of peer IDs") ↔ wrap32 (last + 1) = 0) ∧
  (∀ p, (MakePeer db pub).1 = Ok p →
     p = {| ID := last + 1; Pub := pub |} ∧
     ∃ buf, proto_Marshal_Peer {| Id := last + 1 |} = inr buf ∧
            (MakePeer db pub).2 = created db pub (last + 1) buf) ∧
  (wrap32 (last + 1) ≠ 0 →
     ∀ buf, proto_Marshal_Peer {| Id := last + 1 |} = inr buf →
            Z.of_nat (length buf) ≤ bolt.MaxValueSize →
            MakePeer db pub =
              (Ok {| ID := last + 1; Pub := pub |}, created db pub (last + 1) buf)).
Proof.
  intros Hwf Hlen Habs last.
  rewrite (MakePeer_absent _ _ Habs). unfold Update.
  rewrite (makeNew_cases _ _ Hwf Hlen). fold last. cbv zeta.
  destruct (wrap32_succ last (max_id_range _ Hwf)) as [[Hw Hl]|[Hw Hl]]; rewrite Hw.
  - simpl. split_and!; [done|intros p [=]|done].
  - destruct (Z.eqb_spec (last + 1) 0) as [H0|H0].
    { pose proof (max_id_range _ Hwf). fold last in H. lia. }
    split_and!.
    + split; [|lia].
      destruct (proto_Marshal_Peer _) as [msg|buf]; simpl; [discriminate|].
      destruct (bolt.MaxValueSize <? _); simpl; discriminate.
    + intros p. destruct (proto_Marshal_Peer _) as [msg|buf]; simpl; [discriminate|].
      destruct (bolt.MaxValueSize <? _); simpl; [discriminate|].
      intros [= <-]. eauto.
    + intros _ buf -> Hbuf.
      destruct (Z.ltb_spec bolt.MaxValueSize (Z.of_nat (length buf))); [lia|done].
Qed.

End allocation.

Lemma Uint32_nonneg (k : bytes) (v : Z) : BigEndian.Uint32 k = Ok v → 0 ≤ v.
Proof.
  destruct k as [|b0 [|b1 [|b2 [|b3 rest]]]]; try discriminate.
  rewrite Uint32_arith. intros [= <-].
  pose proof (byte_val_range b0). pose proof (byte_val_range b1).
  pose proof (byte_val_range b2). pose proof (byte_val_range b3). lia.
Qed.

Lemma max_id_unique (idx : Bucket) (v : Z) :
  (∀ k pub a, idx !! k = Some pub → BigEndian.Uint32 k = Ok a → a ≤ v) →
  (∃ k pub, idx !! k = Some pub ∧ BigEndian.Uint32 k = Ok v) →
  max_id idx = v.
Proof.
  intros Hup (k & pub & Hk & Hv).
  pose proof (max_id_upper _ _ _ _ Hk Hv) as Hle.
  pose proof (Uint32_nonneg _ _ Hv) as H0.
  destruct (max_id_attained idx) as [Hz|(k' & pub' & Hk' & Hv')]; [lia|].
  pose proof (Hup _ _ _ Hk' Hv'). lia.
Qed.

(** The id a creation writes is not in the id bucket before it, and is
    the largest one after it. *)
Lemma next_id_fresh (idx : Bucket) :
  wf_id_index idx → max_id idx < uint32_max →
  idx !! BigEndian.PutUint32 (max_id idx + 1) = None.
Proof.
  intros Hwf Hlt. pose proof (max_id_range _ Hwf) as Hr.
  destruct (idx !! _) as [pub|] eqn:Hk; [|done].
  assert (0 ≤ max_id idx + 1 ≤ uint32_max) as Hn by lia.
  pose proof (max_id_upper _ _ _ _ Hk (Uint32_PutUint32 _ Hn)). lia.
Qed.

Lemma wf_id_index_insert (idx : Bucket) (v : Z) (pub : bytes) :
  wf_id_index idx → wf_id_index (<[BigEndian.PutUint32 v := pub]> idx).
Proof.
  intros Hwf k p. rewrite lookup_insert. case_decide; [|by apply Hwf].
  intros _. by subst.
Qed.

Lemma max_id_insert_next (idx : Bucket) (pub : bytes) (m : Z) :
  wf_id_index idx → max_id idx = m → m < uint32_max →
  max_id (<[BigEndian.PutUint32 (m + 1) := pub]> idx) = m + 1.
Proof.
  intros Hwf <- Hlt. pose proof (max_id_range _ Hwf) as Hr.
  assert (0 ≤ max_id idx + 1 ≤ uint32_max) as Hn by lia.
  pose proof (Uint32_PutUint32 _ Hn) as Hrt.
  apply max_id_unique.
  - intros k p a. rewrite lookup_insert. case_decide as Hk.
    + subst k. intros _. rewrite Hrt. intros [= <-]. lia.
    + intros Hin Ha. pose proof (max_id_upper _ _ _ _ Hin Ha). lia.
  - exists (BigEndian.PutUint32 (max_id idx + 1)), pub.
    by rewrite lookup_insert_eq.
Qed.

Section scenario.
Context `{X : Externals}.

(** Two fresh keys registered on the empty store get ids 1 and 2, and
    the first key keeps its id. *)
Lemma MakePeer_scenario (A B : bytes) :
  codec_round_trip → codec_total →
  length A = PublicKeySize → length B = PublicKeySize → A ≠ B →
  let s1 := MakePeer emptyDB A in
  let s2 := MakePeer s1.2 B in
  let s3 := MakePeer s2.2 A in
  s1.1 = Ok {| ID := 1; Pub := A |} ∧
  s2.1 = Ok {| ID := 2; Pub := B |} ∧
  s3.1 = Ok {| ID := 1; Pub := A |} ∧ s3.2 = s2.2.
Proof.
  intros Hrt Htot HA HB Hne.
  assert (wf_id_index (bucketPeerID emptyDB)) as Hwf0 by apply map_Forall_empty.
  destruct (Htot 1 ltac:(unfold uint32_max; lia)) as (buf1 & Hm1 & Hl1).
  destruct (Htot 2 ltac:(unfold uint32_max; lia)) as (buf2 & Hm2 & Hl2).
  destruct (MakePeer_creates emptyDB A Hwf0 HA (lookup_empty _)) as (_ & _ & H1).
  simpl in H1. rewrite max_id_empty in H1.
  specialize (H1 ltac:(done) buf1 Hm1 Hl1).
  intros s1. assert (s1 = (Ok {| ID := 1; Pub := A |}, created emptyDB A 1 buf1)) as Hs1
    by exact H1.
  clearbody s1. subst s1. simpl.
  set (db1 := created emptyDB A 1 buf1).
  assert (wf_id_index (bucketPeerID db1)) as Hwf1 by by apply wf_id_index_insert.
  assert (max_id (bucketPeerID db1) = 1) as Hmax1.
  { apply (max_id_insert_next _ A 0 Hwf0 max_id_empty). unfold uint32_max. lia. }
  assert (bucketPeer db1 !! B = None) as HB1.
  { simpl. rewrite lookup_insert_ne by done. apply lookup_empty. }
  destruct (MakePeer_creates db1 B Hwf1 HB HB1) as (_ & _ & H2).
  rewrite Hmax1 in H2. specialize (H2 ltac:(done) buf2 Hm2 Hl2).
  rewrite H2. simpl.
  set (db2 := created db1 B 2 buf2).
  assert (bucketPeer db2 !! A = Some buf1) as HA2.
  { simpl. rewrite lookup_insert_ne by done. apply lookup_insert_eq. }
  rewrite (MakePeer_present _ _ _ HA2). simpl.
  unfold GetPeer, View. rewrite (findPeer_present _ _ _ HA2).
  rewrite (Hrt 1 buf1 ltac:(unfold uint32_max; lia) Hm1). done.
Qed.

End scenario.

Section reachable_stores.
Context `{X : Externals}.

(** [MakePeer] writes the id bucket through [PutUint32] only. *)
Lemma MakePeer_wf (db : DB) (pub : bytes) :
  wf_id_index (bucketPeerID db) → wf_id_index (bucketPeerID (MakePeer db pub).2).
Proof.
  intros Hwf. destruct (bucketPeer db !! pub) as [val|] eqn:Hval.
  - by rewrite (MakePeer_present _ _ _ Hval).
  - rewrite (MakePeer_absent _ _ Hval). unfold Update.
    destruct (makeNew db pub) as [[p tx']| |] eqn:Hnew; [|done..].
    simpl. revert Hnew. unfold makeNew.
    destruct (match bolt.Last _ with Some _ => _ | None => _ end) as [id0| |];
      simpl; try discriminate.
    destruct (_ =? 0); [discriminate|].
    destruct (bolt.Put (bucketPeerID db) _ _) as [idx'| |] eqn:Hput1; try discriminate.
    apply Put_inv in Hput1 as ->. simpl.
    destruct (proto_Marshal_Peer _) as [m|buf]; simpl; [discriminate|].
    destruct (bolt.Put (bucketPeer db) _ _) as [peers'| |]; try discriminate.
    simpl. intros [= _ <-]. simpl. by apply wf_id_index_insert.
Qed.

Lemma reachable_wf (db : DB) : reachable db → wf_id_index (bucketPeerID db).
Proof.
  induction 1 as [|db pub _ IH _]; [apply map_Forall_empty|by apply MakePeer_wf].
Qed.

End reachable_stores.

Example PutUint32_258 :
  BigEndian.PutUint32 258 = [Byte.x00; Byte.x00; Byte.x01; Byte.x02].
Proof. reflexivity. Qed.

Example Last_is_largest_key :
  bolt.Last {[ [Byte.x00; Byte.x00; Byte.x00; Byte.xff] := Sample.A_PK;
               [Byte.x00; Byte.x00; Byte.x01; Byte.x00] := Sample.B_PK ]} =
    Some ([Byte.x00; Byte.x00; Byte.x01; Byte.x00], Sample.B_PK).
Proof. vm_compute. reflexivity. Qed.

(** A key of the id bucket shorter than four bytes makes the creation
    branch panic in [Uint32]; [MakePeer] never writes such a key. *)
Example MakePeer_short_key_panics :
  MakePeer (X := Sample.externals) (mkDB ∅ {[ [Byte.xff] := Sample.A_PK ]} ∅ ∅)
    Sample.B_PK =
    (Panic "index out of range", mkDB ∅ {[ [Byte.xff] := Sample.A_PK ]} ∅ ∅).
Proof. vm_compute. reflexivity. Qed.

Example MakePeer_out_of_ids :
  MakePeer (X := Sample.externals) Sample.db_full Sample.B_PK =
    (Err (ErrorsNew "out of peer IDs"), Sample.db_full).
Proof. vm_compute. reflexivity. Qed.

(** C1. A call of MakePeer that reaches the creation branch (the key has
    no record) on a store whose id bucket holds four-byte keys gives the
    new record the id one above the numerically largest id of the id
    bucket, 1 on an empty bucket; it fails with "out of peer IDs" exactly
    when that increment wraps to zero; and with a codec that reads back
    what it wrote, two fresh keys registered in sequence on the empty
    store get the ids 1 and 2 and a second call for the first key
    returns id 1 again. Every store the registry leaves has such an id
    bucket. *)
Theorem MakePeer_allocates_next_id `{X : Externals} :
  (∀ db, reachable db → wf_id_index (bucketPeerID db)) ∧
  (∀ db pub,
     wf_id_index (bucketPeerID db) → length pub = PublicKeySize →
     bucketPeer db !! pub = None →
     let last := max_id (bucketPeerID db) in
     (bucketPeerID db = ∅ → last = 0) ∧
     (∀ k p v, bucketPeerID db !! k = Some p → BigEndian.Uint32 k = Ok v → v ≤ last) ∧
     (bucketPeerID db ≠ ∅ →
        ∃ k p, bucketPeerID db !! k = Some p ∧ BigEndian.Uint32 k = Ok last) ∧
     ((MakePeer db pub).1 = Err (ErrorsNew "out of peer IDs") ↔ wrap32 (last + 1) = 0) ∧
     (∀ p, (MakePeer db pub).1 = Ok p →
        p = {| ID := last + 1; Pub := pub |} ∧
        ∃ buf, proto_Marshal_Peer {| Id := last + 1 |} = inr buf ∧
               (MakePeer db pub).2 = created db pub (last + 1) buf) ∧
     (wrap32 (last + 1) ≠ 0 →
        ∀ buf, proto_Marshal_Peer {| Id := last + 1 |} = inr buf →
               Z.of_nat (length buf) ≤ bolt.MaxValueSize →
               MakePeer db pub =
                 (Ok {| ID := last + 1; Pub := pub |}, created db pub (last + 1) buf))) ∧
  (codec_round_trip → codec_total →
   ∀ A B, length A = PublicKeySize → length B = PublicKeySize → A ≠ B →
     let s1 := MakePeer emptyDB A in
     let s2 := MakePeer s1.2 B in
     let s3 := MakePeer s2.2 A in
     s1.1 = Ok {| ID := 1; Pub := A |} ∧
     s2.1 = Ok {| ID := 2; Pub := B |} ∧
     s3.1 = Ok {| ID := 1; Pub := A |} ∧ s3.2 = s2.2).
Proof.
  split_and!.
  - apply reachable_wf.
  - intros db pub Hwf Hlen Habs last.
    destruct (MakePeer_creates db pub Hwf Hlen Habs) as (H1 & H2 & H3).
    split_and!; try done.
    + intros He. unfold last. rewrite He. apply max_id_empty.
    + intros k p v. apply max_id_upper.
    + intros Hne. destruct (max_id_attained (bucketPeerID db)) as [H0|H]; [|done].
      apply map_choose in Hne as (k & p & Hk).
      destruct (Uint32_of_length k (Hwf _ _ Hk)) as (v & Hv & Hr).
      exists k, p. split; [done|]. rewrite Hv. f_equal.
      pose proof (max_id_upper _ _ _ _ Hk Hv). unfold last. lia.
  - intros Hrt Htot A B. by apply MakePeer_scenario.
Qed.

(** ** The sample collaborators meet the assumptions *)

Module SampleFacts.
Import Sample.

Lemma low7 (x : Z) : Z.land x 127 = x mod 128.
Proof. change 127 with (Z.ones 7). by rewrite Z.land_ones by lia. Qed.

Lemma continuation_byte (x : Z) :
  byte_val (to_byte (Z.lor (Z.land x 127) 128)) = x mod 128 + 128.
Proof.
  rewrite byte_val_to_byte, low7.
  pose proof (Z.mod_pos_bound x 128 ltac:(lia)).
  change 128 with (Z.shiftl 1 7) at 2.
  rewrite lor_shiftl_add by (change (2 ^ 7) with 128; lia).
  change (2 ^ 7) with 128. rewrite Z.mod_small; lia.
Qed.

Lemma DecodeVarint_cons (b : byte) (rest : bytes) :
  DecodeVarint (b :: rest) =
    if byte_val b <? 128 then Some (byte_val b, rest)
    else match DecodeVarint rest with
         | Some (v, rest') =>
             Some (Z.lor (Z.land (byte_val b) 127) (Z.shiftl v 7), rest')
         | None => None
         end.
Proof. done. Qed.

Lemma varint_round_trip (fuel : nat) (x : Z) :
  0 ≤ x < 2 ^ (7 * (Z.of_nat fuel + 1)) →
  DecodeVarint (EncodeVarint (S fuel) x) = Some (x, []).
Proof.
  revert x. induction fuel as [|fuel IH]; intros x Hx.
  - change (2 ^ (7 * (Z.of_nat 0 + 1))) with 128 in Hx. simpl.
    destruct (Z.ltb_spec x 128); [|lia]. simpl.
    rewrite byte_val_to_byte, Z.mod_small by lia.
    destruct (Z.ltb_spec x 128); [done|lia].
  - change (EncodeVarint (S (S fuel)) x) with
      (if x <? 128 then [to_byte x]
       else to_byte (Z.lor (Z.land x 127) 128) :: EncodeVarint (S fuel) (Z.shiftr x 7)).
    destruct (Z.ltb_spec x 128) as [Hs|Hb].
    + simpl. rewrite byte_val_to_byte, Z.mod_small by lia.
      destruct (Z.ltb_spec x 128); [done|lia].
    + rewrite DecodeVarint_cons, continuation_byte.
      pose proof (Z.mod_pos_bound x 128 ltac:(lia)) as Hm.
      destruct (Z.ltb_spec (x mod 128 + 128) 128); [lia|].
      rewrite IH.
      * f_equal. f_equal. rewrite low7.
        replace ((x mod 128 + 128) mod 128) with (x mod 128)
          by (Z.to_euclidean_division_equations; lia).
        rewrite lor_shiftl_add by (change (2 ^ 7) with 128; lia).
        rewrite Z.shiftr_div_pow2 by lia. change (2 ^ 7) with 128.
        Z.to_euclidean_division_equations; lia.
      * rewrite Z.shiftr_div_pow2 by lia. change (2 ^ 7) with 128.
        replace (7 * (Z.of_nat (S fuel) + 1)) with (7 + 7 * (Z.of_nat fuel + 1)) in Hx by lia.
        rewrite Z.pow_add_r in Hx by lia. change (2 ^ 7) with 128 in Hx.
        split; [apply Z.div_pos; lia|].
        apply Z.div_lt_upper_bound; lia.
Qed.

Lemma EncodeVarint_length (fuel : nat) (x : Z) :
  (length (EncodeVarint fuel x) ≤ fuel)%nat.
Proof.
  revert x. induction fuel as [|fuel IH]; intros x; simpl; [lia|].
  destruct (x <? 128); simpl; [lia|]. specialize (IH (Z.shiftr x 7)). lia.
Qed.

Lemma codec_round_trip : codec_round_trip (X := externals).
Proof.
  intros id buf Hid. unfold uint32_max in Hid.
  change (proto_Marshal_Peer {| Id := id |}) with (Marshal_Peer {| Id := id |}).
  change (proto_Unmarshal_Peer buf) with (Unmarshal_Peer buf).
  unfold Marshal_Peer. cbn [Id].
  destruct (Z.eqb_spec id 0) as [->|Hne]; intros Hb%(inj inr); subst buf; [done|].
  unfold Unmarshal_Peer. rewrite decide_True by reflexivity.
  assert (2 ^ (7 * (Z.of_nat 4 + 1)) = 34359738368) as Hp by reflexivity.
  rewrite (varint_round_trip 4) by (rewrite Hp; lia).
  do 2 f_equal. unfold wrap32. apply Z.mod_small. lia.
Qed.

Lemma codec_total : codec_total (X := externals).
Proof.
  intros id Hid.
  change (proto_Marshal_Peer {| Id := id |}) with (Marshal_Peer {| Id := id |}).
  unfold Marshal_Peer. cbn [Id].
  destruct (id =? 0); eexists; (split; [reflexivity|]).
  - unfold bolt.MaxValueSize. cbn [length]. lia.
  - pose proof (EncodeVarint_length 5 id). cbn [length].
    unfold bolt.MaxValueSize. lia.
Qed.

Lemma factory_errors_own : factory_errors_own (X := externals).
Proof.
  intros backend e. simpl. unfold open.
  destruct backend as [|a s]; [discriminate|].
  repeat case_match; intros [= <-]; done.
Qed.

Lemma valid_range_in_key_order : valid_range in_key_order.
Proof. intros m. done. Qed.

End SampleFacts.

Lemma MakePeer_allocates_next_id_witness :
  MakePeer (X := Sample.externals) Sample.db1 Sample.B_PK =
    (Ok {| ID := 2; Pub := Sample.B_PK |},
     created Sample.db1 Sample.B_PK 2 [Byte.x08; Byte.x02]) ∧
  (MakePeer (X := Sample.externals) emptyDB Sample.A_PK).1 =
    Ok {| ID := 1; Pub := Sample.A_PK |}.
Proof.
  destruct (MakePeer_allocates_next_id (X := Sample.externals)) as (Hwf & Hnew & Hscn).
  split.
  - destruct (Hnew Sample.db1 Sample.B_PK) as (_ & _ & _ & _ & _ & H).
    + apply (Hwf (MakePeer (X := Sample.externals) emptyDB Sample.A_PK).2).
      apply reachable_MakePeer; [constructor|reflexivity].
    + reflexivity.
    + vm_compute. reflexivity.
    + apply H; vm_compute; [discriminate|reflexivity|discriminate].
  - apply (Hscn SampleFacts.codec_round_trip SampleFacts.codec_total
             Sample.A_PK Sample.B_PK); [reflexivity|reflexivity|].
    vm_compute. discriminate.
Defined.

(** ** Lookups and their errors *)

Section storage_facts.
Context `{X : Externals}.

Lemma OpenKVForPeer_absent
    (range_order : gmap string PeerStorageBackend → list string)
    (db : DB) (pub : bytes) :
  bucketPeerStorage db !! pub = None →
  OpenKVForPeer range_order db pub = Err ErrNoStorageForPeer.
Proof.
  intros H. unfold OpenKVForPeer, View, bolt.Get. by rewrite H.
Qed.

Lemma OpenKVForPeer_present
    (range_order : gmap string PeerStorageBackend → list string)
    (db : DB) (pub val : bytes) (msg : gmap string PeerStorageBackend) :
  bucketPeerStorage db !! pub = Some val →
  proto_Unmarshal_PeerStorage val = inr msg →
  OpenKVForPeer range_order db pub =
    match openAll (range_order msg) [] with
    | Ok kvstores => Ok (kvmulti_New kvstores)
    | Err e => Err e
    | Panic m => Panic m
    end.
Proof.
  intros H Hm. unfold OpenKVForPeer, View, bolt.Get. rewrite H, Hm. simpl.
  by destruct (openAll _ _).
Qed.

Lemma OpenKVForPeer_undecodable
    (range_order : gmap string PeerStorageBackend → list string)
    (db : DB) (pub val : bytes) (m : string) :
  bucketPeerStorage db !! pub = Some val →
  proto_Unmarshal_PeerStorage val = inl m →
  OpenKVForPeer range_order db pub = Err (ErrProto m).
Proof.
  intros H Hm. unfold OpenKVForPeer, View, bolt.Get. by rewrite H, Hm.
Qed.

(** The loop stops at the first backend that fails and hands its error
    up; the backends before it opened. *)
Lemma openAll_first_failure (l1 l2 : list string) (b : string) (e : error)
    (acc : list KV) :
  Forall (λ b', ∃ s, openStorage b' = inr s) l1 →
  openStorage b = inl e →
  openAll (l1 ++ b :: l2) acc = Err e.
Proof.
  intros Hl1 Hb. revert acc. induction Hl1 as [|b' l1 [s Hs] _ IH]; intros acc; simpl.
  - by rewrite Hb.
  - rewrite Hs. simpl. apply IH.
Qed.

Lemma openAll_all_open (l : list string) (acc : list KV) :
  Forall (λ b', ∃ s, openStorage b' = inr s) l →
  ∃ stores, openAll l acc = Ok (acc ++ stores) ∧ length stores = length l.
Proof.
  intros Hl. revert acc. induction Hl as [|b' l [s Hs] _ IH]; intros acc; simpl.
  - exists []. by rewrite app_nil_r.
  - rewrite Hs. simpl. destruct (IH (acc ++ [s])) as (stores & -> & Hlen).
    exists (s :: stores). rewrite <- app_assoc. simpl. by rewrite Hlen.
Qed.

(** Any sequence with a failing backend splits at its first one. *)
Lemma first_failure_split (l : list string) (b : string) :
  b ∈ l → (∃ e, openStorage b = inl e) →
  ∃ l1 b1 e1 l2, l = l1 ++ b1 :: l2 ∧
    Forall (λ b', ∃ s, openStorage b' = inr s) l1 ∧ openStorage b1 = inl e1.
Proof.
  intros Hin Hfail. induction l as [|x l IH]; [by apply elem_of_nil in Hin|].
  destruct (openStorage x) as [e|s] eqn:Hx.
  - exists [], x, e, l. by repeat split.
  - assert (b ∈ l) as Hin'.
    { apply elem_of_cons in Hin as [->|?]; [|done].
      destruct Hfail as [e He]. congruence. }
    destruct (IH Hin') as (l1 & b1 & e1 & l2 & -> & Hl1 & Hb1).
    exists (x :: l1), b1, e1, l2. repeat split; [|done].
    constructor; eauto.
Qed.

Lemma openAll_error_from_factory (l : list string) (acc : list KV) (e : error) :
  openAll l acc = Err e → ∃ b, b ∈ l ∧ openStorage b = inl e.
Proof.
  revert acc. induction l as [|x l IH]; intros acc; simpl; [discriminate|].
  destruct (openStorage x) as [e'|s] eqn:Hx; simpl.
  - intros [= ->]. exists x. split; [by left|done].
  - intros (b & Hb & He)%IH. exists b. split; [by right|done].
Qed.

Lemma openAll_no_panic (l : list string) (acc : list KV) (m : string) :
  openAll l acc ≠ Panic m.
Proof.
  revert acc. induction l as [|x l IH]; intros acc; simpl; [discriminate|].
  destruct (openStorage x); simpl; [discriminate|apply IH].
Qed.

End storage_facts.

(** C3. GetPeer on a key without an identity record returns
    ErrPeerNotFound; OpenKVForPeer on a key that has an identity record
    and no storage binding returns ErrNoStorageForPeer, which is not
    ErrPeerNotFound: the two errors are different values. *)
Theorem not_found_distinction `{X : Externals} :
  (∀ db pub, bucketPeer db !! pub = None → GetPeer db pub = Err ErrPeerNotFound) ∧
  (∀ range_order db pub,
     is_Some (bucketPeer db !! pub) → bucketPeerStorage db !! pub = None →
     OpenKVForPeer range_order db pub = Err ErrNoStorageForPeer ∧
     OpenKVForPeer range_order db pub ≠ Err ErrPeerNotFound) ∧
  ErrNoStorageForPeer ≠ ErrPeerNotFound.
Proof.
  split_and!.
  - intros db pub H. unfold GetPeer, View. by apply findPeer_absent.
  - intros range_order db pub _ H.
    rewrite (OpenKVForPeer_absent _ _ _ H). split; [done|discriminate].
  - discriminate.
Qed.

Lemma not_found_distinction_witness :
  GetPeer (X := Sample.externals) Sample.db1 Sample.B_PK = Err ErrPeerNotFound ∧
  OpenKVForPeer (X := Sample.externals) Sample.in_key_order Sample.db1 Sample.A_PK =
    Err ErrNoStorageForPeer.
Proof.
  destruct (not_found_distinction (X := Sample.externals)) as (Hget & Hopen & _).
  split.
  - apply Hget. vm_compute. reflexivity.
  - apply Hopen; vm_compute; [eexists; reflexivity|reflexivity].
Defined.

(** C4. MakePeer on a key whose identity record exists returns what
    GetPeer returns, the record with the stored id and the key, and
    leaves the store as it was. *)
Theorem MakePeer_idempotent `{X : Externals} (db : DB) (pub : bytes) (p : Peer) :
  GetPeer db pub = Ok p →
  MakePeer db pub = (Ok p, db) ∧
  Pub p = pub ∧ carries db pub (ID p) ∧
  (MakePeer db pub).1 = GetPeer db pub ∧ (MakePeer db pub).2 = db.
Proof.
  intros Hget.
  destruct (bucketPeer db !! pub) as [val|] eqn:Hval.
  - rewrite (MakePeer_present _ _ _ Hval). simpl. rewrite Hget.
    unfold GetPeer, View in Hget. rewrite (findPeer_present _ _ _ Hval) in Hget.
    destruct (proto_Unmarshal_Peer val) as [m|[id]] eqn:Hdec; [discriminate|].
    injection Hget as <-. simpl. split_and!; try done.
    by exists val.
  - apply findPeer_absent in Hval. unfold GetPeer, View in Hget. congruence.
Qed.

Lemma MakePeer_idempotent_witness :
  MakePeer (X := Sample.externals) Sample.db1 Sample.A_PK =
    (Ok {| ID := 1; Pub := Sample.A_PK |}, Sample.db1).
Proof.
  apply (MakePeer_idempotent (X := Sample.externals)). vm_compute. reflexivity.
Defined.

(** C8. When the stored bytes of an identity record fail to decode,
    findPeer and GetPeer return the decoding error itself, which is not
    ErrPeerNotFound, and no record; MakePeer hands the same error up and
    writes nothing in place of the record. *)
Theorem corrupt_record_is_hard_error `{X : Externals}
    (db : DB) (pub val : bytes) (msg : string) :
  bucketPeer db !! pub = Some val →
  proto_Unmarshal_Peer val = inl msg →
  findPeer db pub = Err (ErrProto msg) ∧
  GetPeer db pub = Err (ErrProto msg) ∧
  ErrProto msg ≠ ErrPeerNotFound ∧
  MakePeer db pub = (Err (ErrProto msg), db).
Proof.
  intros Hval Hdec.
  assert (findPeer db pub = Err (ErrProto msg)) as Hfind
    by by rewrite (findPeer_present _ _ _ Hval), Hdec.
  split_and!; [done|done|discriminate|].
  rewrite (MakePeer_present _ _ _ Hval). by unfold GetPeer, View; rewrite Hfind.
Qed.

Lemma corrupt_record_is_hard_error_witness :
  GetPeer (X := Sample.externals) Sample.db_corrupt Sample.A_PK =
    Err (ErrProto "proto: bad wiretype").
Proof.
  apply (corrupt_record_is_hard_error (X := Sample.externals)
           Sample.db_corrupt Sample.A_PK [Byte.xff] "proto: bad wiretype");
    vm_compute; reflexivity.
Defined.

(** ** The storage resolver *)

Lemma range_visits {B} (range_order : gmap string B → list string)
    (m : gmap string B) (b : string) :
  valid_range range_order → b ∈ range_order m ↔ is_Some (m !! b).
Proof.
  intros Hv. rewrite (Hv m), list_elem_of_fmap. split.
  - intros ([k x] & -> & Hin). apply elem_of_map_to_list in Hin. by exists x.
  - intros [x Hx]. exists (b, x). split; [done|by apply elem_of_map_to_list].
Qed.

Lemma range_empty {B} (range_order : gmap string B → list string) :
  valid_range range_order → range_order ∅ = [].
Proof.
  intros Hv. apply Permutation_nil_r. by rewrite (Hv ∅), map_to_list_empty.
Qed.

(** C7. When the storage binding of a key names a backend that fails to
    open, OpenKVForPeer returns an error and no handle, whatever order
    the backends are visited in: the error is that of the first backend
    of the visit that fails, and every backend visited before it
    opened. *)
Theorem first_backend_failure_aborts `{X : Externals}
    (range_order : gmap string PeerStorageBackend → list string)
    (db : DB) (pub val : bytes) (msg : gmap string PeerStorageBackend) :
  valid_range range_order →
  bucketPeerStorage db !! pub = Some val →
  proto_Unmarshal_PeerStorage val = inr msg →
  (∃ b e, is_Some (msg !! b) ∧ openStorage b = inl e) →
  ∃ l1 b1 e1 l2,
    range_order msg = l1 ++ b1 :: l2 ∧
    Forall (λ b', ∃ s, openStorage b' = inr s) l1 ∧
    is_Some (msg !! b1) ∧ openStorage b1 = inl e1 ∧
    OpenKVForPeer range_order db pub = Err e1 ∧
    ∀ kv, OpenKVForPeer range_order db pub ≠ Ok kv.
Proof.
  intros Hv Hval Hdec (b & e & Hb & He).
  apply (range_visits range_order msg b Hv) in Hb.
  destruct (first_failure_split _ b Hb (ex_intro _ e He))
    as (l1 & b1 & e1 & l2 & Hsplit & Hl1 & Hb1).
  exists l1, b1, e1, l2.
  assert (OpenKVForPeer range_order db pub = Err e1) as Hres.
  { rewrite (OpenKVForPeer_present _ _ _ _ _ Hval Hdec), Hsplit.
    by rewrite (openAll_first_failure _ _ _ _ _ Hl1 Hb1). }
  split_and!; try done.
  - apply (range_visits range_order msg b1 Hv). rewrite Hsplit.
    apply elem_of_app. right. by left.
  - intros kv. rewrite Hres. discriminate.
Qed.

Lemma first_backend_failure_aborts_witness :
  ∃ l1 b1 e1 l2,
    Sample.in_key_order (list_to_map [("a"%string, ()); ("!b"%string, ())]) =
      l1 ++ b1 :: l2 ∧
    Forall (λ b', ∃ s, Sample.open b' = inr s) l1 ∧
    is_Some ((list_to_map [("a"%string, ()); ("!b"%string, ())] : gmap string unit) !! b1) ∧
    Sample.open b1 = inl e1 ∧
    OpenKVForPeer (X := Sample.externals) Sample.in_key_order
      Sample.db_storage Sample.A_PK = Err e1 ∧
    ∀ kv, OpenKVForPeer (X := Sample.externals) Sample.in_key_order
            Sample.db_storage Sample.A_PK ≠ Ok kv.
Proof.
  apply (first_backend_failure_aborts (X := Sample.externals) Sample.in_key_order
           Sample.db_storage Sample.A_PK
           [Byte.x01; Byte.x61; Byte.x02; Byte.x21; Byte.x62]).
  - apply SampleFacts.valid_range_in_key_order.
  - vm_compute. reflexivity.
  - vm_compute. reflexivity.
  - exists "!b"%string, (ErrOther "cannot open !b").
    split; [eexists; vm_compute; reflexivity|reflexivity].
Defined.

(** C9. A storage binding that is present and names no backend makes
    OpenKVForPeer return the merged handle over no backend, not
    ErrNoStorageForPeer; an absent binding gives that error, and when
    the backend factory keeps to errors of its own, nothing else does. *)
Theorem empty_binding_opens_empty_handle `{X : Externals} :
  (∀ range_order db pub val,
     valid_range range_order →
     bucketPeerStorage db !! pub = Some val →
     proto_Unmarshal_PeerStorage val = inr ∅ →
     OpenKVForPeer range_order db pub = Ok (kvmulti_New []) ∧
     OpenKVForPeer range_order db pub ≠ Err ErrNoStorageForPeer) ∧
  (∀ range_order db pub,
     bucketPeerStorage db !! pub = None →
     OpenKVForPeer range_order db pub = Err ErrNoStorageForPeer) ∧
  (factory_errors_own →
   ∀ range_order db pub,
     OpenKVForPeer range_order db pub = Err ErrNoStorageForPeer →
     bucketPeerStorage db !! pub = None).
Proof.
  split_and!.
  - intros range_order db pub val Hv Hval Hdec.
    rewrite (OpenKVForPeer_present _ _ _ _ _ Hval Hdec), (range_empty _ Hv).
    simpl. split; [done|discriminate].
  - intros range_order db pub. apply OpenKVForPeer_absent.
  - intros Hown range_order db pub Hres.
    destruct (bucketPeerStorage db !! pub) as [val|] eqn:Hval; [|done].
    destruct (proto_Unmarshal_PeerStorage val) as [m|msg] eqn:Hdec.
    + rewrite (OpenKVForPeer_undecodable _ _ _ _ _ Hval Hdec) in Hres. discriminate.
    + rewrite (OpenKVForPeer_present _ _ _ _ _ Hval Hdec) in Hres.
      destruct (openAll (range_order msg) []) as [stores|e|m] eqn:Hall; try discriminate.
      injection Hres as ->.
      apply openAll_error_from_factory in Hall as (b & _ & Hb).
      by destruct (Hown _ _ Hb).
Qed.

Lemma empty_binding_opens_empty_handle_witness :
  OpenKVForPeer (X := Sample.externals) Sample.in_key_order
    Sample.db_storage_empty Sample.A_PK = Ok [] ∧
  OpenKVForPeer (X := Sample.externals) Sample.in_key_order
    Sample.db1 Sample.A_PK = Err ErrNoStorageForPeer.
Proof.
  destruct (empty_binding_opens_empty_handle (X := Sample.externals))
    as (Hempty & Habsent & Honly).
  split.
  - apply (Hempty Sample.in_key_order Sample.db_storage_empty Sample.A_PK []).
    + apply SampleFacts.valid_range_in_key_order.
    + vm_compute. reflexivity.
    + vm_compute. reflexivity.
  - apply Habsent. apply (Honly SampleFacts.factory_errors_own Sample.in_key_order).
    vm_compute. reflexivity.
Defined.

(** C10. The outcome of OpenKVForPeer is a function of the storage
    bucket alone: two stores with the same storage bucket give the same
    outcome, whatever their identity records; a key without a storage
    binding gets ErrNoStorageForPeer, registered or not; and
    ErrPeerNotFound is never the outcome, the backend factory keeping to
    errors of its own. *)
Theorem OpenKVForPeer_ignores_identity `{X : Externals} :
  (∀ range_order db db' pub,
     bucketPeerStorage db = bucketPeerStorage db' →
     OpenKVForPeer range_order db pub = OpenKVForPeer range_order db' pub) ∧
  (∀ range_order db pub,
     bucketPeerStorage db !! pub = None →
     OpenKVForPeer range_order db pub = Err ErrNoStorageForPeer) ∧
  (factory_errors_own →
   ∀ range_order db pub, OpenKVForPeer range_order db pub ≠ Err ErrPeerNotFound).
Proof.
  split_and!.
  - intros range_order db db' pub Heq. unfold OpenKVForPeer, View. by rewrite Heq.
  - intros range_order db pub. apply OpenKVForPeer_absent.
  - intros Hown range_order db pub Hres.
    destruct (bucketPeerStorage db !! pub) as [val|] eqn:Hval.
    + destruct (proto_Unmarshal_PeerStorage val) as [m|msg] eqn:Hdec.
      * rewrite (OpenKVForPeer_undecodable _ _ _ _ _ Hval Hdec) in Hres. discriminate.
      * rewrite (OpenKVForPeer_present _ _ _ _ _ Hval Hdec) in Hres.
        destruct (openAll (range_order msg) []) as [stores|e|m] eqn:Hall; try discriminate.
        injection Hres as ->.
        apply openAll_error_from_factory in Hall as (b & _ & Hb).
        by destruct (Hown _ _ Hb).
    + rewrite (OpenKVForPeer_absent _ _ _ Hval) in Hres. discriminate.
Qed.

Lemma OpenKVForPeer_ignores_identity_witness :
  OpenKVForPeer (X := Sample.externals) Sample.in_key_order emptyDB Sample.A_PK =
    OpenKVForPeer (X := Sample.externals) Sample.in_key_order Sample.db1 Sample.A_PK ∧
  OpenKVForPeer (X := Sample.externals) Sample.in_key_order emptyDB Sample.B_PK =
    Err ErrNoStorageForPeer ∧
  OpenKVForPeer (X := Sample.externals) Sample.in_key_order
    Sample.db_storage Sample.A_PK ≠ Err ErrPeerNotFound.
Proof.
  destruct (OpenKVForPeer_ignores_identity (X := Sample.externals))
    as (Hsame & Habsent & Hnever).
  split_and!.
  - apply Hsame. reflexivity.
  - apply Habsent. vm_compute. reflexivity.
  - apply Hnever. apply SampleFacts.factory_errors_own.
Defined.

(** ** The two buckets in lockstep *)

Lemma bytes_compare_eq (a b : bytes) : bytes_compare a b = Eq → a = b.
Proof.
  revert b. induction a as [|x a IH]; intros [|y b]; simpl; try done.
  destruct (Z.compare_spec (byte_val x) (byte_val y)) as [Hxy|Hxy|Hxy]; try done.
  intros H. f_equal; [by apply byte_val_inj|by apply IH].
Qed.

(** Two four-byte keys that encode the same id are the same key. *)
Lemma Uint32_inj (k1 k2 : bytes) (v : Z) :
  length k1 = 4%nat → length k2 = 4%nat →
  BigEndian.Uint32 k1 = Ok v → BigEndian.Uint32 k2 = Ok v → k1 = k2.
Proof.
  intros H1 H2 Hv1 Hv2. apply bytes_compare_eq.
  rewrite (bytes_compare_Uint32 _ _ _ _ H1 H2 Hv1 Hv2). apply Z.compare_refl.
Qed.

Section lockstep.
Context `{X : Externals}.

(** A creation that succeeds wrote both entries, for the id above the
    largest one. *)
Lemma makeNew_Ok (tx tx' : DB) (pub : bytes) (p : Peer) :
  wf_id_index (bucketPeerID tx) →
  makeNew tx pub = Ok (p, tx') →
  ∃ buf, let id := max_id (bucketPeerID tx) + 1 in
    id ≤ uint32_max ∧
    proto_Marshal_Peer {| Id := id |} = inr buf ∧
    p = {| ID := id; Pub := pub |} ∧ tx' = created tx pub id buf.
Proof.
  intros Hwf. unfold makeNew. rewrite (Last_max_id _ Hwf). simpl.
  destruct (wrap32_succ _ (max_id_range _ Hwf)) as [[Hw Hl]|[Hw Hl]]; rewrite Hw;
    [discriminate|].
  destruct (_ =? 0); [discriminate|].
  destruct (bolt.Put (bucketPeerID tx) _ _) as [idx'| |] eqn:Hput1; try discriminate.
  apply Put_inv in Hput1 as ->. simpl.
  destruct (proto_Marshal_Peer _) as [m|buf] eqn:Hm; simpl; [discriminate|].
  destruct (bolt.Put (bucketPeer tx) _ _) as [peers'| |] eqn:Hput2; try discriminate.
  apply Put_inv in Hput2 as ->. simpl.
  intros [= <- <-]. exists buf. simpl. split_and!; try done. lia.
Qed.

(** Both entries or none: [MakePeer] leaves the store as it was or
    with the id entry and the record written together. *)
Lemma MakePeer_atomic (db : DB) (pub : bytes) :
  (MakePeer db pub).2 = db ∨
  ∃ id buf, (MakePeer db pub).2 = created db pub id buf.
Proof.
  destruct (bucketPeer db !! pub) as [val|] eqn:Hval.
  - left. by rewrite (MakePeer_present _ _ _ Hval).
  - rewrite (MakePeer_absent _ _ Hval). unfold Update.
    destruct (makeNew db pub) as [[p tx']| |] eqn:Hnew; [|by left..].
    right. simpl. revert Hnew. unfold makeNew.
    destruct (match bolt.Last _ with Some _ => _ | None => _ end) as [id0| |];
      simpl; try discriminate.
    destruct (_ =? 0); [discriminate|].
    destruct (bolt.Put (bucketPeerID db) _ _) as [idx'| |] eqn:Hput1; try discriminate.
    apply Put_inv in Hput1 as ->. simpl.
    destruct (proto_Marshal_Peer _) as [m|buf] eqn:Hm; simpl; [discriminate|].
    destruct (bolt.Put (bucketPeer db) _ _) as [peers'| |] eqn:Hput2; try discriminate.
    apply Put_inv in Hput2 as ->. simpl.
    intros [= <- <-]. by eexists _, _.
Qed.

Lemma registry_inv_empty : registry_inv emptyDB.
Proof.
  split_and!.
  - apply map_Forall_empty.
  - intros k pub H. unfold emptyDB in H. simpl in H. by rewrite lookup_empty in H.
  - intros pub val H. unfold emptyDB in H. simpl in H. by rewrite lookup_empty in H.
Qed.

Lemma registry_inv_created (db : DB) (pub buf : bytes) :
  codec_round_trip →
  registry_inv db → bucketPeer db !! pub = None →
  max_id (bucketPeerID db) + 1 ≤ uint32_max →
  proto_Marshal_Peer {| Id := max_id (bucketPeerID db) + 1 |} = inr buf →
  registry_inv (created db pub (max_id (bucketPeerID db) + 1) buf).
Proof.
  intros Hrt (Hwf & Hidx & Hrec) Habs Hle Hm.
  set (id := max_id (bucketPeerID db) + 1) in *.
  pose proof (max_id_range _ Hwf) as Hr.
  assert (0 ≤ id ≤ uint32_max) as Hid by (unfold id; lia).
  pose proof (Hrt id buf Hid Hm) as Hdec.
  pose proof (Uint32_PutUint32 id Hid) as Hkey.
  assert (bucketPeerID db !! BigEndian.PutUint32 id = None) as Hfresh
    by (apply next_id_fresh; [done|lia]).
  split_and!.
  - by apply wf_id_index_insert.
  - intros k p. simpl. rewrite lookup_insert. case_decide as Hk.
    + intros [= <-]. subst k. exists id. split; [done|].
      exists buf. simpl. by rewrite lookup_insert_eq.
    + intros Hin. destruct (Hidx _ _ Hin) as (id' & Hid' & val & Hval & Hdec').
      exists id'. split; [done|]. exists val. simpl.
      rewrite lookup_insert_ne; [done|]. intros ->. congruence.
  - intros p val. simpl. rewrite lookup_insert. case_decide as Hp.
    + intros [= <-]. subst p. exists id. split; [done|].
      exists (BigEndian.PutUint32 id). simpl. by rewrite lookup_insert_eq.
    + intros Hin. destruct (Hrec _ _ Hin) as (id' & Hdec' & k & Hk & Hid').
      exists id'. split; [done|]. exists k. simpl.
      rewrite lookup_insert_ne; [done|]. intros <-. congruence.
Qed.

Lemma registry_inv_MakePeer (db : DB) (pub : bytes) :
  codec_round_trip → registry_inv db → registry_inv (MakePeer db pub).2.
Proof.
  intros Hrt Hinv.
  destruct (bucketPeer db !! pub) as [val|] eqn:Hval.
  - by rewrite (MakePeer_present _ _ _ Hval).
  - rewrite (MakePeer_absent _ _ Hval). unfold Update.
    destruct (makeNew db pub) as [[p tx']| |] eqn:Hnew; [|done..].
    destruct (makeNew_Ok _ _ _ _ (proj1 Hinv) Hnew) as (buf & Hle & Hm & _ & ->).
    simpl. by apply registry_inv_created.
Qed.

Lemma registry_inv_bijection (db : DB) : registry_inv db → bijection db.
Proof.
  intros (Hwf & Hidx & Hrec).
  assert (∀ id pub, indexed db id pub → carries db pub id) as Hic.
  { intros id pub (k & Hk & Hid).
    destruct (Hidx _ _ Hk) as (id' & Hid' & Hc). congruence. }
  assert (∀ pub id, carries db pub id → indexed db id pub) as Hci.
  { intros pub id (val & Hval & Hdec).
    destruct (Hrec _ _ Hval) as (id' & Hdec' & Hi). congruence. }
  split.
  - intros id pub Hi. split; [by apply Hic|].
    intros pub' Hc'. apply Hci in Hc' as (k' & Hk' & Hid').
    destruct Hi as (k & Hk & Hid).
    assert (k' = k) as -> by
      (eapply Uint32_inj; [by eapply Hwf|by eapply Hwf|done..]).
    congruence.
  - intros pub id Hc. split; [by apply Hci|].
    intros id' Hi'. apply Hic in Hi' as (val' & Hval' & Hdec').
    destruct Hc as (val & Hval & Hdec). congruence.
Qed.

End lockstep.

(** C5. The id bucket and the identity records are in bijection after
    every registry operation: the empty store has the two in lockstep,
    MakePeer keeps them so, with a codec that reads back what it wrote,
    by writing the id entry and the record together or not at all, and
    in lockstep every indexed id has exactly one record, with that id
    and that key, and every record exactly one index entry. The reads
    GetPeer, OpenKVForPeer and the lookup of DialPeer run under View and
    return no store. *)
Theorem registry_buckets_in_bijection `{X : Externals} :
  registry_inv emptyDB ∧
  (∀ db pub,
     (MakePeer db pub).2 = db ∨
     ∃ id buf, (MakePeer db pub).2 = created db pub id buf) ∧
  (codec_round_trip →
   ∀ db pub, registry_inv db → registry_inv (MakePeer db pub).2) ∧
  (∀ db, registry_inv db → bijection db) ∧
  (codec_round_trip → ∀ db, reachable db → bijection db).
Proof.
  split_and!.
  - apply registry_inv_empty.
  - apply MakePeer_atomic.
  - intros Hrt db pub. by apply registry_inv_MakePeer.
  - apply registry_inv_bijection.
  - intros Hrt db Hreach. apply registry_inv_bijection.
    induction Hreach as [|db pub _ IH _].
    + apply registry_inv_empty.
    + by apply registry_inv_MakePeer.
Qed.

Lemma registry_buckets_in_bijection_witness :
  bijection (X := Sample.externals)
    (MakePeer (X := Sample.externals)
       (MakePeer (X := Sample.externals) emptyDB Sample.A_PK).2 Sample.B_PK).2 ∧
  bijection (X := Sample.externals) Sample.db1.
Proof.
  destruct (registry_buckets_in_bijection (X := Sample.externals))
    as (Hempty & _ & Hstep & Hbij & Hreach).
  split.
  - apply Hbij. apply (Hstep SampleFacts.codec_round_trip).
    apply (Hstep SampleFacts.codec_round_trip). exact Hempty.
  - apply (Hreach SampleFacts.codec_round_trip).
    apply (reachable_MakePeer (X := Sample.externals) emptyDB Sample.A_PK);
      [constructor|reflexivity].
Defined.

(** ** The connection establisher *)

Lemma lookup_unknown (db : DB) (pub : bytes) (network addr : string) :
  bucketPeerAddr db !! pub = None →
  lookup db pub network addr = Err (ErrorsNew "no address known for peer").
Proof. intros H. unfold lookup, View, bolt.Get. by rewrite H. Qed.

Lemma lookup_known (db : DB) (pub val : bytes) (network addr : string) :
  bucketPeerAddr db !! pub = Some val →
  lookup db pub network addr = Ok (network, string_of_bytes val, pub).
Proof. intros H. unfold lookup, View, bolt.Get. by rewrite H. Qed.

(** The key the lookup hands to the credential is the dialled one. *)
Lemma lookup_expects_pub (db : DB) (pub : bytes) (network addr n a : string) (k : bytes) :
  lookup db pub network addr = Ok (n, a, k) → k = pub ∧ n = network.
Proof.
  unfold lookup, View, bolt.Get.
  destruct (bucketPeerAddr db !! pub); simpl; [|discriminate].
  intros [= <- _ <-]. done.
Qed.

Lemma DialPeer_known (db : DB) (net : Network) (pub val : bytes) :
  bucketPeerAddr db !! pub = Some val →
  DialPeer db net pub =
    (match net "tcp"%string (string_of_bytes val) with
     | NoAnswer => Err ErrDialTimeout
     | Presents key =>
         if decide (key = pub)
         then Ok {| conn := {| conn_network := "tcp";
                               conn_addr := string_of_bytes val;
                               conn_key := key |} |}
         else Err ErrHandshakeIdentityMismatch
     end, [Connect "tcp" (string_of_bytes val)]).
Proof.
  intros H. unfold DialPeer, grpc_Dial. rewrite (lookup_known _ _ _ _ _ H).
  destruct (net _ _) as [|key]; [done|]. by destruct (decide (key = pub)).
Qed.

(** C2. Every dial hands the credential the dialled key as the expected
    one; a far end that presents another key makes the handshake fail
    with the identity-mismatch error and DialPeer return no client; and a
    client that DialPeer returns is connected to a far end that
    presented the dialled key, byte for byte. *)
Theorem dial_pins_public_key :
  (∀ db pub network addr n a k,
     lookup db pub network addr = Ok (n, a, k) → k = pub) ∧
  (∀ db net pub val key,
     bucketPeerAddr db !! pub = Some val →
     net "tcp"%string (string_of_bytes val) = Presents key →
     key ≠ pub →
     DialPeer db net pub =
       (Err ErrHandshakeIdentityMismatch, [Connect "tcp" (string_of_bytes val)])) ∧
  (∀ db net pub c tr,
     DialPeer db net pub = (Ok c, tr) →
     conn_key (conn c) = pub ∧
     net (conn_network (conn c)) (conn_addr (conn c)) = Presents pub).
Proof.
  split_and!.
  - intros db pub network addr n a k H. by apply lookup_expects_pub in H as [-> _].
  - intros db net pub val key Hval Hnet Hne.
    rewrite (DialPeer_known _ _ _ _ Hval), Hnet. by rewrite decide_False.
  - intros db net pub c tr.
    destruct (bucketPeerAddr db !! pub) as [val|] eqn:Hval.
    + rewrite (DialPeer_known _ _ _ _ Hval).
      destruct (net _ _) as [|key] eqn:Hnet; [discriminate|].
      destruct (decide (key = pub)) as [->|]; [|discriminate].
      intros [= <- _]. done.
    + unfold DialPeer, grpc_Dial. rewrite (lookup_unknown _ _ _ _ Hval). discriminate.
Qed.

Lemma dial_pins_public_key_witness :
  DialPeer Sample.db_addr Sample.net_B Sample.A_PK =
    (Err ErrHandshakeIdentityMismatch, [Connect "tcp" "h:1"]) ∧
  conn_key (conn (mk_peerClient (mkClientConn "tcp" "h:1" Sample.A_PK))) = Sample.A_PK.
Proof.
  destruct dial_pins_public_key as (Hexp & Hbad & Hgood).
  split.
  - apply (Hbad Sample.db_addr Sample.net_B Sample.A_PK
             [Byte.x68; Byte.x3a; Byte.x31] Sample.B_PK).
    + vm_compute. reflexivity.
    + reflexivity.
    + vm_compute. discriminate.
  - apply (Hgood Sample.db_addr Sample.net_A Sample.A_PK _ [Connect "tcp" "h:1"]).
    vm_compute. reflexivity.
Defined.

(** C6. Without an address binding for the key, DialPeer fails with the
    lookup's error "no address known for peer" and attempts no
    connection, on every network; the one failed lookup ends the dial. *)
Theorem dial_without_address_fails (db : DB) (net : Network) (pub : bytes) :
  bucketPeerAddr db !! pub = None →
  DialPeer db net pub = (Err (ErrorsNew "no address known for peer"), []).
Proof.
  intros H. unfold DialPeer, grpc_Dial. by rewrite (lookup_unknown _ _ _ _ H).
Qed.

Lemma dial_without_address_fails_witness :
  DialPeer Sample.db1 Sample.net_A Sample.A_PK =
    (Err (ErrorsNew "no address known for peer"), []).
Proof.
  apply dial_without_address_fails. vm_compute. reflexivity.
Defined.

(** * Further properties of the registry *)

Section creation_facts.
Context `{X : Externals}.

(** A creation that succeeds, on any store: the id is a nonzero
    [uint32], the record is its encoding, and both entries are
    written. *)
Lemma makeNew_shape (tx tx' : DB) (pub : bytes) (p : Peer) :
  makeNew tx pub = Ok (p, tx') →
  ∃ id buf, 1 ≤ id ≤ uint32_max ∧
    proto_Marshal_Peer {| Id := id |} = inr buf ∧
    p = {| ID := id; Pub := pub |} ∧ tx' = created tx pub id buf.
Proof.
  unfold makeNew.
  destruct (match bolt.Last _ with Some _ => _ | None => _ end) as [id0| |];
    simpl; try discriminate.
  pose proof (Z.mod_pos_bound (id0 + 1) 4294967296 ltac:(lia)) as Hr.
  fold (wrap32 (id0 + 1)) in Hr.
  destruct (Z.eqb_spec (wrap32 (id0 + 1)) 0) as [|Hne]; [discriminate|].
  destruct (bolt.Put (bucketPeerID tx) _ _) as [idx'| |] eqn:Hput1; try discriminate.
  apply Put_inv in Hput1 as ->. simpl.
  destruct (proto_Marshal_Peer _) as [m|buf] eqn:Hm; simpl; [discriminate|].
  destruct (bolt.Put (bucketPeer tx) _ _) as [peers'| |] eqn:Hput2; try discriminate.
  apply Put_inv in Hput2 as ->. simpl.
  intros [= <- <-]. exists (wrap32 (id0 + 1)), buf.
  unfold uint32_max. split_and!; try done; lia.
Qed.


Lemma Put_no_panic (b : Bucket) (key value : bytes) (m : string) :
  bolt.Put b key value ≠ Panic m.
Proof. unfold bolt.Put. repeat case_match; discriminate. Qed.



(** On a well-formed id bucket the creation branch does not panic. *)
Lemma makeNew_no_panic (tx : DB) (pub : bytes) (m : string) :
  wf_id_index (bucketPeerID tx) → makeNew tx pub ≠ Panic m.
Proof.
  intros Hwf. unfold makeNew. rewrite (Last_max_id _ Hwf). simpl.
  destruct (_ =? 0); [discriminate|].
  destruct (bolt.Put (bucketPeerID tx) _ _) as [idx'|e1|m1] eqn:Hput1; simpl;
    [|discriminate|by apply Put_no_panic in Hput1].
  destruct (proto_Marshal_Peer _) as [m'|buf]; simpl; [discriminate|].
  destruct (bolt.Put (bucketPeer tx) _ _) as [peers'|e2|m2] eqn:Hput2; simpl;
    [discriminate|discriminate|by apply Put_no_panic in Hput2].
Qed.


End creation_facts.

Lemma has_id_max_id (idx : Bucket) (v : Z) : has_id idx v → v ≤ max_id idx.
Proof. intros (k & pub & Hk & Hv). by eapply max_id_upper. Qed.

Lemma dense_ids_empty : dense_ids ∅.
Proof.
  split.
  - intros v. rewrite max_id_empty. split; [|lia].
    intros (k & pub & Hk & _). by rewrite lookup_empty in Hk.
  - by rewrite map_size_empty, max_id_empty.
Qed.

(** Writing the next id keeps the ids dense. *)
Lemma dense_ids_insert_next (idx : Bucket) (pub : bytes) :
  wf_id_index idx → max_id idx < uint32_max → dense_ids idx →
  dense_ids (<[BigEndian.PutUint32 (max_id idx + 1) := pub]> idx).
Proof.
  intros Hwf Hlt [Hids Hsize].
  pose proof (max_id_range _ Hwf) as Hr.
  assert (0 ≤ max_id idx + 1 ≤ uint32_max) as Hn by lia.
  pose proof (Uint32_PutUint32 _ Hn) as Hkey.
  pose proof (next_id_fresh _ Hwf Hlt) as Hfresh.
  split.
  - intros v. rewrite (max_id_insert_next idx pub _ Hwf eq_refl Hlt). split.
    + intros (k & q & Hk & Hv). revert Hk. rewrite lookup_insert. case_decide as Hkk.
      * subst k. intros _. rewrite Hkey in Hv. injection Hv as <-. lia.
      * intros Hk. assert (has_id idx v) as Hh by (by exists k, q).
        apply Hids in Hh. lia.
    + intros Hv. destruct (decide (v = max_id idx + 1)) as [->|Hne].
      * exists (BigEndian.PutUint32 (max_id idx + 1)), pub.
        by rewrite lookup_insert_eq.
      * destruct (proj2 (Hids v) ltac:(lia)) as (k & q & Hk & Hkv).
        exists k, q. split; [|done].
        rewrite lookup_insert_ne; [done|]. intros <-. congruence.
  - rewrite (max_id_insert_next idx pub _ Hwf eq_refl Hlt).
    rewrite map_size_insert_None by done. lia.
Qed.

Section registry_more.
Context `{X : Externals}.

Lemma MakePeer_absent_Ok (db : DB) (pub : bytes) (p : Peer) :
  wf_id_index (bucketPeerID db) → bucketPeer db !! pub = None →
  (MakePeer db pub).1 = Ok p →
  ∃ buf, max_id (bucketPeerID db) + 1 ≤ uint32_max ∧
    proto_Marshal_Peer {| Id := max_id (bucketPeerID db) + 1 |} = inr buf ∧
    MakePeer db pub =
      (Ok {| ID := max_id (bucketPeerID db) + 1; Pub := pub |},
       created db pub (max_id (bucketPeerID db) + 1) buf).
Proof.
  intros Hwf Habs. rewrite (MakePeer_absent _ _ Habs). unfold Update.
  destruct (makeNew db pub) as [[p' tx']| |] eqn:Hnew; simpl; try discriminate.
  intros _. destruct (makeNew_Ok _ _ _ _ Hwf Hnew) as (buf & Hle & Hm & -> & ->).
  exists buf. done.
Qed.

Lemma MakePeer_Ok_cases (db db' : DB) (pub : bytes) (p : Peer) :
  MakePeer db pub = (Ok p, db') →
  (db' = db ∧ GetPeer db pub = Ok p) ∨
  (bucketPeer db !! pub = None ∧
   ∃ id buf, 1 ≤ id ≤ uint32_max ∧ proto_Marshal_Peer {| Id := id |} = inr buf ∧
     p = {| ID := id; Pub := pub |} ∧ db' = created db pub id buf).
Proof.
  destruct (bucketPeer db !! pub) as [val|] eqn:Hval.
  - rewrite (MakePeer_present _ _ _ Hval). intros [= -> <-]. by left.
  - rewrite (MakePeer_absent _ _ Hval). unfold Update.
    destruct (makeNew db pub) as [[p' tx']| |] eqn:Hnew; try discriminate.
    intros [= <- <-]. right. split; [done|]. by apply makeNew_shape.
Qed.

Lemma GetPeer_Ok_carries (db : DB) (pub : bytes) (p : Peer) :
  GetPeer db pub = Ok p → Pub p = pub ∧ carries db pub (ID p).
Proof.
  unfold GetPeer, View. destruct (bucketPeer db !! pub) as [val|] eqn:Hval.
  - rewrite (findPeer_present _ _ _ Hval).
    destruct (proto_Unmarshal_Peer val) as [m|[id]] eqn:Hdec; [discriminate|].
    intros [= <-]. simpl. split; [done|]. by exists val.
  - apply findPeer_absent in Hval. congruence.
Qed.

Lemma GetPeer_created (db : DB) (pub buf : bytes) (id : Z) :
  codec_round_trip → 0 ≤ id ≤ uint32_max →
  proto_Marshal_Peer {| Id := id |} = inr buf →
  GetPeer (created db pub id buf) pub = Ok {| ID := id; Pub := pub |}.
Proof.
  intros Hrt Hid Hm. unfold GetPeer, View.
  rewrite (findPeer_present _ _ buf) by apply lookup_insert_eq.
  by rewrite (Hrt id buf Hid Hm).
Qed.

Lemma reachable_dense_ids (db : DB) : reachable db → dense_ids (bucketPeerID db).
Proof.
  induction 1 as [|db pub Hreach IH _]; [apply dense_ids_empty|].
  pose proof (reachable_wf _ Hreach) as Hwf.
  destruct (bucketPeer db !! pub) as [val|] eqn:Hval.
  - by rewrite (MakePeer_present _ _ _ Hval).
  - destruct (MakePeer db pub).1 as [p| |] eqn:Hres.
    + destruct (MakePeer_absent_Ok _ _ _ Hwf Hval Hres) as (buf & Hle & _ & ->).
      simpl. apply dense_ids_insert_next; [done|lia|done].
    + revert Hres. rewrite (MakePeer_absent _ _ Hval). unfold Update.
      by destruct (makeNew db pub) as [[??]| |].
    + revert Hres. rewrite (MakePeer_absent _ _ Hval). unfold Update.
      by destruct (makeNew db pub) as [[??]| |].
Qed.

End registry_more.

(** X1. A creation gives the new peer an id above every id of the id
    bucket, never zero, which is the largest id afterwards; the id
    bucket then maps that id to the key, and every entry of the two
    buckets that was there before is still there. *)
Theorem allocation_is_monotonic `{X : Externals} (db : DB) (pub : bytes) (p : Peer) :
  wf_id_index (bucketPeerID db) → bucketPeer db !! pub = None →
  (MakePeer db pub).1 = Ok p →
  let db' := (MakePeer db pub).2 in
  1 ≤ ID p ≤ uint32_max ∧
  (∀ v, has_id (bucketPeerID db) v → v < ID p) ∧
  max_id (bucketPeerID db') = ID p ∧
  bucketPeerID db' !! BigEndian.PutUint32 (ID p) = Some pub ∧
  (∀ k q, bucketPeerID db !! k = Some q → bucketPeerID db' !! k = Some q) ∧
  (∀ q val, bucketPeer db !! q = Some val → bucketPeer db' !! q = Some val).
Proof.
  intros Hwf Habs Hres.
  destruct (MakePeer_absent_Ok _ _ _ Hwf Habs Hres) as (buf & Hle & Hm & Heq).
  rewrite Heq in Hres. simpl in Hres. injection Hres as <-.
  rewrite Heq. simpl.
  pose proof (max_id_range _ Hwf) as Hr.
  pose proof (next_id_fresh _ Hwf ltac:(lia)) as Hfresh.
  split_and!.
  - lia.
  - lia.
  - intros v Hv%has_id_max_id. lia.
  - apply max_id_insert_next; [done..|lia].
  - apply lookup_insert_eq.
  - intros k q Hk. rewrite lookup_insert_ne; [done|]. intros <-. congruence.
  - intros q val Hq. rewrite lookup_insert_ne; [done|]. intros <-. congruence.
Qed.

Lemma allocation_is_monotonic_witness :
  max_id (bucketPeerID (MakePeer (X := Sample.externals) Sample.db1 Sample.B_PK).2) = 2 ∧
  bucketPeerID (MakePeer (X := Sample.externals) Sample.db1 Sample.B_PK).2
    !! BigEndian.PutUint32 2 = Some Sample.B_PK.
Proof.
  destruct (allocation_is_monotonic (X := Sample.externals) Sample.db1 Sample.B_PK
              {| ID := 2; Pub := Sample.B_PK |}) as (_ & _ & Hmax & Hkey & _).
  - apply wf_id_index_insert, map_Forall_empty.
  - vm_compute. reflexivity.
  - vm_compute. reflexivity.
  - split; [exact Hmax|exact Hkey].
Defined.

(** X2. In every store the registry leaves, the ids of the id bucket are
    exactly 1, 2, ..., n with n the number of its entries: no gap, no id
    twice, no id 0. *)
Theorem reachable_ids_dense `{X : Externals} (db : DB) :
  reachable db →
  (∀ v, has_id (bucketPeerID db) v ↔ 1 ≤ v ≤ Z.of_nat (size (bucketPeerID db))) ∧
  Z.of_nat (size (bucketPeerID db)) = max_id (bucketPeerID db).
Proof.
  intros [Hids Hsize]%reachable_dense_ids. split; [|done].
  intros v. rewrite Hsize. apply Hids.
Qed.

Lemma reachable_ids_dense_witness :
  (∀ v, has_id (bucketPeerID (MakePeer (X := Sample.externals) emptyDB Sample.A_PK).2) v
        ↔ 1 ≤ v ≤ 1) ∧
  1 = max_id (bucketPeerID (MakePeer (X := Sample.externals) emptyDB Sample.A_PK).2).
Proof.
  apply (reachable_ids_dense (X := Sample.externals)
           (MakePeer (X := Sample.externals) emptyDB Sample.A_PK).2).
  apply reachable_MakePeer; [constructor|reflexivity].
Defined.



(** X4. What MakePeer returns is what the store then holds: after a call
    that returned a record, GetPeer for the key returns that record, and
    a second MakePeer returns it again without changing the store. *)
Theorem MakePeer_then_GetPeer `{X : Externals} (db db' : DB) (pub : bytes) (p : Peer) :
  codec_round_trip →
  MakePeer db pub = (Ok p, db') →
  GetPeer db' pub = Ok p ∧ MakePeer db' pub = (Ok p, db').
Proof.
  intros Hrt Hmake.
  assert (GetPeer db' pub = Ok p) as Hget.
  { destruct (MakePeer_Ok_cases _ _ _ _ Hmake)
      as [[-> Hget]|(_ & id & buf & Hid & Hm & -> & ->)]; [done|].
    apply GetPeer_created; [done|lia|done]. }
  split; [done|].
  destruct (GetPeer_Ok_carries _ _ _ Hget) as (_ & val & Hval & _).
  by rewrite (MakePeer_present _ _ _ Hval), Hget.
Qed.

Lemma MakePeer_then_GetPeer_witness :
  GetPeer (X := Sample.externals) Sample.db1 Sample.A_PK =
    Ok {| ID := 1; Pub := Sample.A_PK |} ∧
  MakePeer (X := Sample.externals) Sample.db1 Sample.A_PK =
    (Ok {| ID := 1; Pub := Sample.A_PK |}, Sample.db1).
Proof.
  apply (MakePeer_then_GetPeer (X := Sample.externals) emptyDB).
  - apply SampleFacts.codec_round_trip.
  - vm_compute. reflexivity.
Defined.

(** X5. MakePeer for one key touches nothing else: the address and
    storage buckets are unchanged, the record of every other key is
    unchanged, and so GetPeer for another key, OpenKVForPeer and
    DialPeer behave after the call as they did before it. *)
Theorem MakePeer_frame `{X : Externals} (db : DB) (pub : bytes) :
  let db' := (MakePeer db pub).2 in
  bucketPeerAddr db' = bucketPeerAddr db ∧
  bucketPeerStorage db' = bucketPeerStorage db ∧
  (∀ q, q ≠ pub →
     bucketPeer db' !! q = bucketPeer db !! q ∧ GetPeer db' q = GetPeer db q) ∧
  (∀ range_order q, OpenKVForPeer range_order db' q = OpenKVForPeer range_order db q) ∧
  (∀ net q, DialPeer db' net q = DialPeer db net q).
Proof.
  destruct (MakePeer_atomic db pub) as [->|(id & buf & ->)]; [done|].
  simpl. split_and!; try done.
  intros q Hne.
  assert (bucketPeer (created db pub id buf) !! q = bucketPeer db !! q) as Hq
    by (simpl; by rewrite lookup_insert_ne).
  split; [done|].
  unfold GetPeer, View, findPeer, bolt.Get. by rewrite Hq.
Qed.





(** X8. On every store the registry leaves, MakePeer does not panic,
    whatever key it is called for: the last key of the id bucket always
    has the four bytes Uint32 reads. *)
Theorem MakePeer_never_panics `{X : Externals} (db : DB) (pub : bytes) (m : string) :
  reachable db → (MakePeer db pub).1 ≠ Panic m.
Proof.
  intros Hreach. pose proof (reachable_wf _ Hreach) as Hwf.
  destruct (bucketPeer db !! pub) as [val|] eqn:Hval.
  - rewrite (MakePeer_present _ _ _ Hval). simpl.
    unfold GetPeer, View. rewrite (findPeer_present _ _ _ Hval).
    destruct (proto_Unmarshal_Peer val); discriminate.
  - rewrite (MakePeer_absent _ _ Hval). unfold Update.
    destruct (makeNew db pub) as [[p tx']| |m'] eqn:Hnew; simpl; try discriminate.
    by apply makeNew_no_panic in Hnew.
Qed.

Lemma MakePeer_never_panics_witness :
  (MakePeer (X := Sample.externals)
     (MakePeer (X := Sample.externals) emptyDB Sample.A_PK).2 Sample.B_PK).1
  ≠ Panic "index out of range".
Proof.
  apply (MakePeer_never_panics (X := Sample.externals)).
  apply reachable_MakePeer; [constructor|reflexivity].
Defined.

(** * Further properties of the storage resolver *)

Section resolver_more.
Context `{X : Externals}.

Lemma opened_Some (b : string) (s : KV) : opened b = Some s ↔ openStorage b = inr s.
Proof. unfold opened. destruct (openStorage b); split; congruence. Qed.

(** The loop succeeds exactly when every backend of the visit opens, and
    then appends their handles in the order of the visit. *)
Lemma openAll_Ok (l : list string) (acc stores : list KV) :
  openAll l acc = Ok stores ↔
  Forall (λ b, is_Some (opened b)) l ∧ stores = acc ++ omap opened l.
Proof.
  revert acc. induction l as [|b l IH]; intros acc; simpl.
  - rewrite app_nil_r. split; [intros [= <-]; by split|intros [_ ->]; done].
  - unfold opened at 2. destruct (openStorage b) as [e|s] eqn:Hb; simpl.
    + split; [discriminate|]. intros [Hall _]. apply Forall_cons in Hall as [[s Hs] _].
      apply opened_Some in Hs. congruence.
    + rewrite IH, <- app_assoc. simpl. split.
      * intros [Hall ->]. split; [|done]. constructor; [|done].
        exists s. by apply opened_Some.
      * intros [Hall ->]. split; [|done]. by apply Forall_cons in Hall as [_ ?].
Qed.

Lemma length_omap_opened (l : list string) :
  Forall (λ b, is_Some (opened b)) l → length (omap opened l) = length l.
Proof.
  induction 1 as [|b l [s Hs] _ IH]; simpl; [done|]. rewrite Hs. simpl.
  f_equal. exact IH.
Qed.

Lemma OpenKVForPeer_Ok
    (range_order : gmap string PeerStorageBackend → list string)
    (db : DB) (pub : bytes) (kv : KV) :
  OpenKVForPeer range_order db pub = Ok kv ↔
  ∃ val msg, bucketPeerStorage db !! pub = Some val ∧
    proto_Unmarshal_PeerStorage val = inr msg ∧
    Forall (λ b, is_Some (opened b)) (range_order msg) ∧
    kv = kvmulti_New (omap opened (range_order msg)).
Proof.
  split.
  - destruct (bucketPeerStorage db !! pub) as [val|] eqn:Hval.
    + destruct (proto_Unmarshal_PeerStorage val) as [m|msg] eqn:Hdec.
      * by rewrite (OpenKVForPeer_undecodable _ _ _ _ _ Hval Hdec).
      * rewrite (OpenKVForPeer_present _ _ _ _ _ Hval Hdec).
        destruct (openAll (range_order msg) []) as [stores| |] eqn:Hall; try discriminate.
        apply openAll_Ok in Hall as [Hall ->]. intros [= <-].
        exists val, msg. done.
    + by rewrite (OpenKVForPeer_absent _ _ _ Hval).
  - intros (val & msg & Hval & Hdec & Hall & ->).
    rewrite (OpenKVForPeer_present _ _ _ _ _ Hval Hdec).
    by rewrite (proj2 (openAll_Ok _ [] _) (conj Hall eq_refl)).
Qed.

Lemma Forall_range
    (range_order : gmap string PeerStorageBackend → list string)
    (msg : gmap string PeerStorageBackend) (P : string → Prop) :
  valid_range range_order →
  Forall P (range_order msg) ↔ ∀ b, is_Some (msg !! b) → P b.
Proof.
  intros Hv. rewrite Forall_forall. split.
  - intros H b Hb. apply H. by apply (range_visits range_order msg b Hv).
  - intros H b Hb. apply H. by apply (range_visits range_order msg b Hv).
Qed.

End resolver_more.

(** X9. OpenKVForPeer returns a handle exactly when the key has a storage
    binding, the binding decodes, and every backend it names opens; the
    handle is then the merge of one handle per named backend, those the
    factory returned, in the order of the visit. *)
Theorem OpenKVForPeer_succeeds_iff `{X : Externals}
    (range_order : gmap string PeerStorageBackend → list string)
    (db : DB) (pub : bytes) (kv : KV) :
  valid_range range_order →
  OpenKVForPeer range_order db pub = Ok kv ↔
  ∃ val msg stores,
    bucketPeerStorage db !! pub = Some val ∧
    proto_Unmarshal_PeerStorage val = inr msg ∧
    (∀ b, is_Some (msg !! b) → ∃ s, openStorage b = inr s) ∧
    Forall2 (λ b s, openStorage b = inr s) (range_order msg) stores ∧
    length stores = size msg ∧
    kv = kvmulti_New stores.
Proof.
  intros Hv. rewrite OpenKVForPeer_Ok. split.
  - intros (val & msg & Hval & Hdec & Hall & ->).
    exists val, msg, (omap opened (range_order msg)). split_and!; try done.
    + intros b Hb.
      destruct (proj1 (Forall_range range_order msg
                         (λ b, is_Some (opened b)) Hv) Hall b Hb) as [s Hs].
      exists s. by apply opened_Some.
    + clear Hval Hdec. induction Hall as [|b l [s Hs] _ IH]; simpl; [constructor|].
      rewrite Hs. simpl. constructor; [by apply opened_Some|done].
    + rewrite (length_omap_opened _ Hall), (Hv msg), length_fmap.
      apply length_map_to_list.
  - intros (val & msg & stores & Hval & Hdec & Hopen & Hstores & _ & ->).
    exists val, msg. split_and!; try done.
    + apply (Forall_range range_order msg (λ b, is_Some (opened b)) Hv).
      intros b Hb. destruct (Hopen b Hb) as [s Hs]. exists s. by apply opened_Some.
    + f_equal. clear Hval Hdec Hopen.
      induction Hstores as [|b s l stores Hbs _ IH]; simpl; [done|].
      apply opened_Some in Hbs. rewrite Hbs. simpl. by rewrite IH.
Qed.

Lemma OpenKVForPeer_succeeds_iff_witness :
  OpenKVForPeer (X := Sample.externals) Sample.in_key_order
    Sample.db_storage_good Sample.A_PK = Ok ["a"; "b"]%string.
Proof.
  apply (OpenKVForPeer_succeeds_iff (X := Sample.externals) Sample.in_key_order
           Sample.db_storage_good Sample.A_PK ["a"; "b"]%string
           SampleFacts.valid_range_in_key_order).
  exists [Byte.x01; Byte.x61; Byte.x01; Byte.x62],
         (<["a"%string := ()]> (<["b"%string := ()]> ∅)),
         [["a"%string]; ["b"%string]].
  split_and!.
  - vm_compute. reflexivity.
  - vm_compute. reflexivity.
  - intros b [u Hb]. revert Hb. rewrite lookup_insert. case_decide as Ha.
    + subst b. intros _. by eexists.
    + rewrite lookup_insert. case_decide as Hb'.
      * subst b. intros _. by eexists.
      * by rewrite lookup_empty.
  - vm_compute. repeat constructor.
  - vm_compute. reflexivity.
  - reflexivity.
Defined.

(** X10. The order in which the backends are visited does not decide
    whether OpenKVForPeer succeeds: it returns a handle under one order
    exactly when it does under any other, and the handles merged are
    then the same up to their order. *)
Theorem visit_order_does_not_decide_success `{X : Externals}
    (r1 r2 : gmap string PeerStorageBackend → list string)
    (db : DB) (pub : bytes) :
  valid_range r1 → valid_range r2 →
  ((∃ kv, OpenKVForPeer r1 db pub = Ok kv) ↔ (∃ kv, OpenKVForPeer r2 db pub = Ok kv)) ∧
  (∀ kv1 kv2,
     OpenKVForPeer r1 db pub = Ok kv1 → OpenKVForPeer r2 db pub = Ok kv2 →
     ∃ s1 s2, kv1 = kvmulti_New s1 ∧ kv2 = kvmulti_New s2 ∧ s1 ≡ₚ s2).
Proof.
  intros Hv1 Hv2.
  assert (∀ ra rb, valid_range ra → valid_range rb →
            (∃ kv, OpenKVForPeer ra db pub = Ok kv) →
            ∃ kv, OpenKVForPeer rb db pub = Ok kv) as Hdir.
  { intros ra rb Ha Hb [kv (val & msg & Hval & Hdec & Hall & _)%OpenKVForPeer_Ok].
    exists (kvmulti_New (omap opened (rb msg))). apply OpenKVForPeer_Ok.
    exists val, msg. split_and!; try done.
    apply (Forall_range rb msg (λ b, is_Some (opened b)) Hb).
    by apply (Forall_range ra msg (λ b, is_Some (opened b)) Ha). }
  split; [split; by apply Hdir|].
  intros kv1 kv2 (val & msg & Hval & Hdec & _ & ->)%OpenKVForPeer_Ok
                 (val' & msg' & Hval' & Hdec' & _ & ->)%OpenKVForPeer_Ok.
  assert (msg' = msg) as -> by congruence.
  eexists _, _. split_and!; try done.
  apply omap_Permutation. by rewrite (Hv1 msg), (Hv2 msg).
Qed.

Lemma visit_order_does_not_decide_success_witness :
  ((∃ kv, OpenKVForPeer (X := Sample.externals) Sample.in_key_order
            Sample.db_storage_good Sample.A_PK = Ok kv) ↔
   (∃ kv, OpenKVForPeer (X := Sample.externals) Sample.in_reverse_key_order
            Sample.db_storage_good Sample.A_PK = Ok kv)) ∧
  (∀ kv1 kv2,
     OpenKVForPeer (X := Sample.externals) Sample.in_key_order
       Sample.db_storage_good Sample.A_PK = Ok kv1 →
     OpenKVForPeer (X := Sample.externals) Sample.in_reverse_key_order
       Sample.db_storage_good Sample.A_PK = Ok kv2 →
     ∃ s1 s2, kv1 = concat s1 ∧ kv2 = concat s2 ∧ s1 ≡ₚ s2).
Proof.
  apply (visit_order_does_not_decide_success (X := Sample.externals)).
  - apply SampleFacts.valid_range_in_key_order.
  - intros m. unfold Sample.in_reverse_key_order. rewrite reverse_Permutation.
    apply SampleFacts.valid_range_in_key_order.
Defined.

(** The error, unlike the success, depends on the order of the visit. *)
Example error_depends_on_visit_order :
  OpenKVForPeer (X := Sample.externals) Sample.in_key_order
    Sample.db_storage_bad Sample.A_PK = Err (ErrOther "cannot open !a") ∧
  OpenKVForPeer (X := Sample.externals) Sample.in_reverse_key_order
    Sample.db_storage_bad Sample.A_PK = Err (ErrOther "cannot open !b").
Proof. split; vm_compute; reflexivity. Qed.

(** * Further properties of the id keys *)

Lemma PutUint32_Uint32 (k : bytes) (v : Z) :
  length k = 4%nat → BigEndian.Uint32 k = Ok v → BigEndian.PutUint32 v = k.
Proof.
  intros Hlen Hv.
  destruct (Uint32_of_length k Hlen) as (v' & Hv' & Hr).
  assert (v' = v) as -> by congruence.
  apply (Uint32_inj _ _ v); [done|done| |done].
  by apply Uint32_PutUint32.
Qed.

(** X11. The four-byte big-endian keys sort as the ids they encode:
    comparing two id keys bytewise, as the cursor of the id bucket does,
    is comparing the two ids as numbers. *)
Theorem id_keys_sort_numerically (a b : Z) :
  0 ≤ a ≤ uint32_max → 0 ≤ b ≤ uint32_max →
  bytes_compare (BigEndian.PutUint32 a) (BigEndian.PutUint32 b) = (a ?= b).
Proof.
  intros Ha Hb.
  apply bytes_compare_Uint32; try done; by apply Uint32_PutUint32.
Qed.

Lemma id_keys_sort_numerically_witness :
  bytes_compare (BigEndian.PutUint32 255) (BigEndian.PutUint32 256) = (255 ?= 256).
Proof.
  apply id_keys_sort_numerically; unfold uint32_max; lia.
Defined.

(** X12. The id key round trip: the key PutUint32 writes for a uint32 id
    has four bytes and Uint32 reads the id back from it; and every
    four-byte key is the key of the id Uint32 reads from it, so two
    different ids never share a key. *)
Theorem id_key_round_trip :
  (∀ v, 0 ≤ v ≤ uint32_max →
     length (BigEndian.PutUint32 v) = 4%nat ∧
     BigEndian.Uint32 (BigEndian.PutUint32 v) = Ok v) ∧
  (∀ k, length k = 4%nat →
     ∃ v, 0 ≤ v ≤ uint32_max ∧ BigEndian.Uint32 k = Ok v ∧ BigEndian.PutUint32 v = k) ∧
  (∀ a b, 0 ≤ a ≤ uint32_max → 0 ≤ b ≤ uint32_max →
     BigEndian.PutUint32 a = BigEndian.PutUint32 b → a = b).
Proof.
  split_and!.
  - intros v Hv. split; [done|by apply Uint32_PutUint32].
  - intros k Hlen. destruct (Uint32_of_length k Hlen) as (v & Hv & Hr).
    exists v. split_and!; [lia|lia|done|by apply PutUint32_Uint32].
  - intros a b Ha Hb Heq.
    pose proof (Uint32_PutUint32 a Ha) as H1. rewrite Heq, (Uint32_PutUint32 b Hb) in H1.
    congruence.
Qed.

Lemma id_key_round_trip_witness :
  BigEndian.Uint32 (BigEndian.PutUint32 4000000000) = Ok 4000000000 ∧
  ∃ v, 0 ≤ v ≤ uint32_max ∧
    BigEndian.Uint32 [Byte.x00; Byte.x00; Byte.x01; Byte.x02] = Ok v ∧
    BigEndian.PutUint32 v = [Byte.x00; Byte.x00; Byte.x01; Byte.x02].
Proof.
  destruct id_key_round_trip as (Hput & Hget & _).
  split.
  - apply Hput. unfold uint32_max. lia.
  - apply Hget. reflexivity.
Defined.

(** X13. In every store the registry leaves there are as many identity
    records as id entries: a creation adds one of each, under a key that
    was in neither bucket, and nothing else changes either bucket. *)
Theorem records_and_ids_count_alike `{X : Externals} (db : DB) :
  reachable db → size (bucketPeer db) = size (bucketPeerID db).
Proof.
  induction 1 as [|db pub Hreach IH _]; [done|].
  pose proof (reachable_wf _ Hreach) as Hwf.
  destruct (bucketPeer db !! pub) as [val|] eqn:Hval.
  - by rewrite (MakePeer_present _ _ _ Hval).
  - destruct (MakePeer db pub).1 as [p| |] eqn:Hres.
    + destruct (MakePeer_absent_Ok _ _ _ Hwf Hval Hres) as (buf & Hle & _ & ->).
      simpl. pose proof (max_id_range _ Hwf) as Hr.
      rewrite !map_size_insert_None; [by rewrite IH|by apply next_id_fresh; [|lia]|done].
    + revert Hres. rewrite (MakePeer_absent _ _ Hval). unfold Update.
      by destruct (makeNew db pub) as [[??]| |].
    + revert Hres. rewrite (MakePeer_absent _ _ Hval). unfold Update.
      by destruct (makeNew db pub) as [[??]| |].
Qed.

Lemma records_and_ids_count_alike_witness :
  size (bucketPeer (MakePeer (X := Sample.externals) emptyDB Sample.A_PK).2) =
  size (bucketPeerID (MakePeer (X := Sample.externals) emptyDB Sample.A_PK).2).
Proof.
  apply (records_and_ids_count_alike (X := Sample.externals)).
  apply reachable_MakePeer; [constructor|reflexivity].
Defined.
